(** * slowdrip-miner: receipts, session signer, Merkle batcher and QoS agent

    A shallow embedding of [internal/receipts/signer.go] and
    [internal/service/agent.go].

    Conventions.
    - A Go byte is a [Z] in [0, 256); a [[]byte] is a [list Z] holding the
      slice's contents.  Fixed-width integers are [Z] with the wrap-around
      of the Go conversion or operator written out.
    - A Go [string] is a [string]: one [ascii] per byte.
    - [crypto/sha256] is implemented here (FIPS 180-4) so that digests can
      be evaluated; [crypto/ed25519] and [sort.Slice] are library code and
      enter through an interface together with the contract their
      documentation states. *)

From Stdlib Require Import ZArith Lia String Ascii List Bool.
From stdpp Require Import gmap strings list sorting.

Import ListNotations.

(** ** Bytes and fixed-width integers *)

Module Bytes.
Local Open Scope Z_scope.

(** Go's [byte(v)] conversion: the low eight bits. *)
Definition byte (v : Z) : Z := Z.land v 255.

(** Go's [uint16(v)], [uint64(v)] and [int64(v)] conversions. *)
Definition uint16 (v : Z) : Z := v mod 2 ^ 16.
Definition uint64 (v : Z) : Z := v mod 2 ^ 64.
Definition int64 (v : Z) : Z := (v + 2 ^ 63) mod 2 ^ 64 - 2 ^ 63.

Definition is_byte (b : Z) : bool := (0 <=? b) && (b <? 256).
Definition is_uint64 (v : Z) : bool := (0 <=? v) && (v <? 2 ^ 64).
Definition is_int64 (v : Z) : bool := (- 2 ^ 63 <=? v) && (v <? 2 ^ 63).

(** [[]byte(s)]: the bytes of a string. *)
Definition of_string (s : string) : list Z :=
  map (fun c => Z.of_N (N_of_ascii c)) (list_ascii_of_string s).

(** [len(x)] as a Go [int]. *)
Definition len {A} (l : list A) : Z := Z.of_nat (length l).

(** [var b [n]byte]: a zeroed array. *)
Definition zeros (n : nat) : list Z := repeat 0 n.
End Bytes.

(** ** crypto/sha256 *)

Module SHA256.
Import Bytes.
Local Open Scope Z_scope.

Definition add32 (a b : Z) : Z := (a + b) mod 2 ^ 32.
Definition rotr (n x : Z) : Z :=
  Z.lor (Z.shiftr x n) ((Z.shiftl x (32 - n)) mod 2 ^ 32).
Definition shr (n x : Z) : Z := Z.shiftr x n.

Definition Ch (x y z : Z) : Z :=
  Z.lxor (Z.land x y) (Z.land (Z.lxor x (2 ^ 32 - 1)) z).
Definition Maj (x y z : Z) : Z :=
  Z.lxor (Z.lxor (Z.land x y) (Z.land x z)) (Z.land y z).
Definition bsig0 (x : Z) : Z := Z.lxor (Z.lxor (rotr 2 x) (rotr 13 x)) (rotr 22 x).
Definition bsig1 (x : Z) : Z := Z.lxor (Z.lxor (rotr 6 x) (rotr 11 x)) (rotr 25 x).
Definition ssig0 (x : Z) : Z := Z.lxor (Z.lxor (rotr 7 x) (rotr 18 x)) (shr 3 x).
Definition ssig1 (x : Z) : Z := Z.lxor (Z.lxor (rotr 17 x) (rotr 19 x)) (shr 10 x).

(** The constants come from the first primes: the round constants are
    the first 32 bits of the fractional parts of the cube roots of the
    first 64 primes, the initial chaining value those of the square roots
    of the first 8. *)
Definition is_prime (n : Z) : bool :=
  (1 <? n) &&
  forallb (fun d => negb (n mod Z.of_nat d =? 0)) (seq 2 (Z.to_nat n - 2)).

Definition primes : list Z :=
  List.filter is_prime (map Z.of_nat (seq 2 310)).

(** The integer cube root of [x], one bit at a time from bit [bits - 1]. *)
Fixpoint icbrt (bits : nat) (x r : Z) : Z :=
  match bits with
  | O => r
  | S b =>
      let c := r + 2 ^ Z.of_nat b in
      icbrt b x (if c * c * c <=? x then c else r)
  end.

Definition frac_cbrt (p : Z) : Z := icbrt 36 (p * 2 ^ 96) 0 mod 2 ^ 32.
Definition frac_sqrt (p : Z) : Z := Z.sqrt (p * 2 ^ 64) mod 2 ^ 32.

Definition K : list Z := Eval vm_compute in map frac_cbrt primes.

(** The eight working variables / the chaining value. *)
Record state := State {
  sa : Z; sb : Z; sc : Z; sd : Z; se : Z; sf : Z; sg : Z; sh : Z
}.

Definition init : state :=
  Eval vm_compute in
    let h := fun i => frac_sqrt (nth i primes 0) in
    State (h 0%nat) (h 1%nat) (h 2%nat) (h 3%nat)
          (h 4%nat) (h 5%nat) (h 6%nat) (h 7%nat).

Definition be32 (w : Z) : list Z :=
  [ byte (Z.shiftr w 24); byte (Z.shiftr w 16); byte (Z.shiftr w 8); byte w ].

Definition be64 (v : Z) : list Z :=
  be32 (Z.shiftr v 32) ++ be32 v.

(** Padding: a one bit, zeros up to 56 mod 64, then the bit length. *)
Definition pad (m : list Z) : list Z :=
  m ++ [128] ++ repeat 0 (Z.to_nat ((55 - len m) mod 64)) ++ be64 (8 * len m).

Fixpoint blocks (n : nat) (l : list Z) : list (list Z) :=
  match n with
  | O => []
  | S n' => firstn 64 l :: blocks n' (skipn 64 l)
  end.

(** The sixteen big-endian words of a block. *)
Fixpoint words (l : list Z) : list Z :=
  match l with
  | b0 :: b1 :: b2 :: b3 :: rest =>
      (Z.shiftl b0 24 + Z.shiftl b1 16 + Z.shiftl b2 8 + b3) :: words rest
  | _ => []
  end.

(** Message schedule, kept newest-first: [ws] holds W(t-1), W(t-2), ... *)
Fixpoint schedule (n : nat) (ws : list Z) : list Z :=
  match n with
  | O => ws
  | S n' =>
      let w := add32 (add32 (ssig1 (nth 1 ws 0)) (nth 6 ws 0))
                     (add32 (ssig0 (nth 14 ws 0)) (nth 15 ws 0)) in
      schedule n' (w :: ws)
  end.

Definition round (s : state) (kw : Z * Z) : state :=
  let '(k, w) := kw in
  let t1 := add32 (add32 (add32 (sh s) (bsig1 (se s)))
                         (add32 (Ch (se s) (sf s) (sg s)) k)) w in
  let t2 := add32 (bsig0 (sa s)) (Maj (sa s) (sb s) (sc s)) in
  State (add32 t1 t2) (sa s) (sb s) (sc s) (add32 (sd s) t1) (se s) (sf s) (sg s).

Definition compress (s : state) (block : list Z) : state :=
  let ws := rev (schedule 48 (rev (words block))) in
  let s' := fold_left round (combine K ws) s in
  State (add32 (sa s) (sa s')) (add32 (sb s) (sb s')) (add32 (sc s) (sc s'))
        (add32 (sd s) (sd s')) (add32 (se s) (se s')) (add32 (sf s) (sf s'))
        (add32 (sg s) (sg s')) (add32 (sh s) (sh s')).

Definition output (s : state) : list Z :=
  be32 (sa s) ++ be32 (sb s) ++ be32 (sc s) ++ be32 (sd s) ++
  be32 (se s) ++ be32 (sf s) ++ be32 (sg s) ++ be32 (sh s).

(** [sha256.Sum256]. *)
Definition Sum256 (m : list Z) : list Z :=
  let p := pad m in
  output (fold_left compress (blocks (length p / 64) p) init).

(** [hash.Hash] as returned by [sha256.New()]: the bytes written so far. *)
Record Hash := { written : list Z }.
Definition New : Hash := {| written := [] |}.
Definition Write (h : Hash) (p : list Z) : Hash :=
  {| written := written h ++ p |}.
(** [h.Sum(b)] appends the checksum of the written bytes to [b]. *)
Definition Sum (h : Hash) (b : list Z) : list Z := b ++ Sum256 (written h).
End SHA256.

(** ** Outcomes of Go calls *)

(** A call either returns or panics (index or slice bounds out of range,
    a library precondition).  A Go [error] result is [None] for [nil] and
    [Some msg] for [errors.New(msg)]. *)
Inductive outcome (A : Type) : Type :=
| Return (a : A)
| Panics.
Arguments Return {A} a.
Arguments Panics {A}.

Definition error : Type := option string.

(** ** time.Time *)

Module Time.
Local Open Scope Z_scope.

(** An instant, counted in nanoseconds from the Unix epoch (the wall
    clock reading; monotonic readings are left out). *)
Definition Time : Type := Z.

(** [t.After(u)]. *)
Definition After (t u : Time) : bool := u <? t.

(** [t.Add(d)] for a duration of [d] nanoseconds. *)
Definition Add (t : Time) (d : Z) : Time := t + d.

(** [t.UnixNano()]: the count as an [int64]. *)
Definition UnixNano (t : Time) : Z := Bytes.int64 t.
End Time.

(** ** internal/service: the QoS agent *)

Module Service.
Import Bytes.
Local Open Scope Z_scope.

Record SegmentReceipt := {
  Path : string;
  Seq : Z;                 (* uint64 *)
  Size : Z;                (* int64 *)
  Deadline : Time.Time;
  Recv : Time.Time;
  Commit : list Z;         (* [32]byte *)
  Meta : Z                 (* time.Duration *)
}.

Record streamStats := {
  Accepted : Z;            (* int64 *)
  Late : Z;                (* int64 *)
  Bytes : Z;               (* int64 *)
  LastSeq : Z;             (* uint64 *)
  rolling : list Z;        (* [32]byte *)
  recentCommits : list (list Z)
}.

(** [&streamStats{}]. *)
Definition zero_stats : streamStats :=
  {| Accepted := 0; Late := 0; Bytes := 0; LastSeq := 0;
     rolling := zeros 32; recentCommits := [] |}.

(** The logger and the mutex carry no state of their own here; every
    [add] runs with the lock held from entry to exit. *)
Record Agent := {
  perPath : gmap string streamStats;
  lastFlush : Time.Time;
  flushInterval : Z;       (* time.Duration *)
  maxRecent : Z            (* int *)
}.

Definition New : Agent :=
  {| perPath := ∅; lastFlush := 0;
     flushInterval := 10 * 1000000000; maxRecent := 64 |}.

(** The package-level variables [defaultAgent] and [once]. *)
Record Globals := {
  defaultAgent : option Agent;
  once : bool              (* has [once.Do] run its function? *)
}.

(** The state of a process in which nothing has run yet. *)
Definition initial : Globals := {| defaultAgent := None; once := false |}.

(** The [once.Do] of [Start], run at time [now]. *)
Definition Start_once (now : Time.Time) (g : Globals) : Globals :=
  if once g then g
  else
    let a := New in
    {| defaultAgent :=
         Some {| perPath := perPath a; lastFlush := now;
                 flushInterval := flushInterval a; maxRecent := maxRecent a |};
       once := true |}.

Definition putU64 (b : list Z) (v : Z) : list Z :=
  let b := <[0%nat := byte (Z.shiftr v 56)]> b in
  let b := <[1%nat := byte (Z.shiftr v 48)]> b in
  let b := <[2%nat := byte (Z.shiftr v 40)]> b in
  let b := <[3%nat := byte (Z.shiftr v 32)]> b in
  let b := <[4%nat := byte (Z.shiftr v 24)]> b in
  let b := <[5%nat := byte (Z.shiftr v 16)]> b in
  let b := <[6%nat := byte (Z.shiftr v 8)]> b in
  <[7%nat := byte v]> b.

Definition copy (dst src : list Z) : list Z :=
  firstn (length dst) src ++ skipn (length src) dst.

(** The slice expression [s[low:]]: panics unless [0 <= low <= len(s)]. *)
Definition slice_from {A} (s : list A) (low : Z) : outcome (list A) :=
  if (0 <=? low) && (low <=? len s) then Return (drop (Z.to_nat low) s)
  else Panics.

(** [rolling = H(rolling || Commit || Seq || Size || Deadline || Recv)]. *)
Definition roll (st_rolling : list Z) (r : SegmentReceipt) : list Z :=
  let h := SHA256.New in
  let h := SHA256.Write h st_rolling in
  let h := SHA256.Write h (Commit r) in
  let seqBuf := zeros 8 in
  let seqBuf := putU64 seqBuf (Seq r) in
  let h := SHA256.Write h seqBuf in
  let sizeBuf := zeros 8 in
  let sizeBuf := putU64 sizeBuf (uint64 (Size r)) in
  let h := SHA256.Write h sizeBuf in
  let seqBuf := putU64 seqBuf (uint64 (Time.UnixNano (Deadline r))) in
  let h := SHA256.Write h seqBuf in
  let seqBuf := putU64 seqBuf (uint64 (Time.UnixNano (Recv r))) in
  let h := SHA256.Write h seqBuf in
  copy st_rolling (SHA256.Sum h []).

(** The body of [add] on the stats [st] of the receipt's path. *)
Definition add_stats (maxRecent : Z) (st : streamStats) (r : SegmentReceipt)
  : outcome streamStats :=
  let onTime := negb (Time.After (Recv r) (Deadline r)) in
  let lastSeq := if LastSeq st <? Seq r then Seq r else LastSeq st in
  if onTime then
    let accepted := int64 (Accepted st + 1) in
    let bytes := int64 (Bytes st + Size r) in
    let rolling' := roll (rolling st) r in
    let recent := recentCommits st ++ [Commit r] in
    if maxRecent <? len recent then
      match slice_from recent (int64 (len recent - maxRecent)) with
      | Return recent' =>
          Return {| Accepted := accepted; Late := Late st; Bytes := bytes;
                    LastSeq := lastSeq; rolling := rolling';
                    recentCommits := recent' |}
      | Panics => Panics
      end
    else
      Return {| Accepted := accepted; Late := Late st; Bytes := bytes;
                LastSeq := lastSeq; rolling := rolling';
                recentCommits := recent |}
  else
    Return {| Accepted := Accepted st; Late := int64 (Late st + 1);
              Bytes := Bytes st; LastSeq := lastSeq; rolling := rolling st;
              recentCommits := recentCommits st |}.

Definition add (a : Agent) (r : SegmentReceipt) : outcome Agent :=
  let st := match perPath a !! Path r with
            | Some st => st
            | None => zero_stats
            end in
  match add_stats (maxRecent a) st r with
  | Return st' =>
      Return {| perPath := <[Path r := st']> (perPath a);
                lastFlush := lastFlush a; flushInterval := flushInterval a;
                maxRecent := maxRecent a |}
  | Panics => Panics
  end.

Definition AddReceipt (r : SegmentReceipt) (g : Globals) : outcome Globals :=
  match defaultAgent g with
  | None => Return g
  | Some a =>
      match add a r with
      | Return a' => Return {| defaultAgent := Some a'; once := once g |}
      | Panics => Panics
      end
  end.

(** Recording a sequence of observations, oldest first. *)
Fixpoint add_all (a : Agent) (rs : list SegmentReceipt) : outcome Agent :=
  match rs with
  | [] => Return a
  | r :: rs' =>
      match add a r with
      | Return a' => add_all a' rs'
      | Panics => Panics
      end
  end.

Fixpoint AddReceipt_all (rs : list SegmentReceipt) (g : Globals)
  : outcome Globals :=
  match rs with
  | [] => Return g
  | r :: rs' =>
      match AddReceipt r g with
      | Return g' => AddReceipt_all rs' g'
      | Panics => Panics
      end
  end.
(** *** What the aggregator is specified to hold *)

(** The classification rule: on time iff received no later than the
    deadline. *)
Definition on_time (r : SegmentReceipt) : bool := Recv r <=? Deadline r.

(** The observations of a history made for path [p], oldest first. *)
Definition for_path (p : string) (obs : list SegmentReceipt)
  : list SegmentReceipt :=
  List.filter (fun r => String.eqb (Path r) p) obs.

Definition accepted_count (ps : list SegmentReceipt) : Z :=
  len (List.filter on_time ps).

Definition late_count (ps : list SegmentReceipt) : Z :=
  len (List.filter (fun r => negb (on_time r)) ps).

Definition accepted_bytes (ps : list SegmentReceipt) : Z :=
  fold_right Z.add 0 (map Size (List.filter on_time ps)).

Definition accepted_commits (ps : list SegmentReceipt) : list (list Z) :=
  map Commit (List.filter on_time ps).

(** The last [n] elements of a list, in order (all of it when shorter). *)
Definition last_n {A} (n : nat) (l : list A) : list A :=
  drop (length l - n) l.

(** The stats an agent holds for a path after a run, if it returned. *)
Definition stats_after (o : outcome Agent) (p : string) : option streamStats :=
  match o with
  | Return a => perPath a !! p
  | Panics => None
  end.

(** The ring of every path fits the capacity, which is not negative:
    holds of [New] and is kept by [add]. *)
Definition agent_inv (a : Agent) : Prop :=
  0 <= maxRecent a /\
  forall p st, perPath a !! p = Some st ->
    len (recentCommits st) <= maxRecent a.

(** An observation of [size] bytes for path [p], due at [deadline] and
    delivered at [recv]. *)
Definition observation (p : string) (seq size : Z) (deadline recv : Time.Time)
  : SegmentReceipt :=
  {| Path := p; Seq := seq; Size := size; Deadline := deadline; Recv := recv;
     Commit := SHA256.Sum256 (of_string p ++ [byte seq]); Meta := 0 |}.
(** What the stats of a path hold after the observations [ps] made for
    it, with the counters as the [int64] they are. *)
Definition tracks (cap : Z) (st : streamStats) (ps : list SegmentReceipt)
  : Prop :=
  Accepted st = int64 (accepted_count ps) /\
  Late st = int64 (late_count ps) /\
  Bytes st = int64 (accepted_bytes ps) /\
  recentCommits st = last_n (Z.to_nat cap) (accepted_commits ps).

(** The agent after the history [obs], path by path. *)
Definition history_inv (cap : Z) (a : Agent) (obs : list SegmentReceipt)
  : Prop :=
  maxRecent a = cap /\
  forall p,
    match perPath a !! p with
    | None => for_path p obs = []
    | Some st => for_path p obs <> [] /\ tracks cap st (for_path p obs)
    end.

End Service.

(** ** internal/receipts: the receipt and its canonical digest *)

Module Receipts.
Import Bytes.
Local Open Scope Z_scope.

Definition ReceiptVersion : Z := 1.
Definition DomainTag : string := "SlowDrip:PoS-Receipt:v1".

(** [PubKey] and [Sig] hold the contents of the slices; a nil slice is
    the empty list (the code only takes their length and contents). *)
Record Receipt := {
  Version : Z;        (* uint8 *)
  Path : string;
  Seq : Z;            (* uint64 *)
  Size : Z;           (* int64 *)
  Deadline : Z;       (* int64, UnixNano *)
  Recv : Z;           (* int64, UnixNano *)
  Commit : list Z;    (* [32]byte *)
  Nonce : Z;          (* uint64 *)
  PubKey : list Z;
  Sig : list Z
}.

(** The values a Go [Receipt] can hold. *)
Definition wf_receipt (r : Receipt) : bool :=
  is_byte (Version r) && is_uint64 (Seq r) && is_int64 (Size r) &&
  is_int64 (Deadline r) && is_int64 (Recv r) &&
  (length (Commit r) =? 32)%nat && forallb is_byte (Commit r) &&
  is_uint64 (Nonce r).

(** The fields that enter the digest. *)
Definition signed_fields (r : Receipt)
  : Z * string * Z * Z * Z * Z * list Z * Z :=
  (Version r, Path r, Seq r, Size r, Deadline r, Recv r, Commit r, Nonce r).

(** [binary.BigEndian.PutUint16(b, v)] on a two-byte array. *)
Definition PutUint16 (b : list Z) (v : Z) : list Z :=
  <[1%nat := byte v]> (<[0%nat := byte (Z.shiftr v 8)]> b).

(** [putU64]: the bounds check [_ = b[:8]] holds at every call, where
    [b] is an eight-byte array. *)
Definition putU64 (b : list Z) (v : Z) : list Z :=
  let b := <[0%nat := byte (Z.shiftr v 56)]> b in
  let b := <[1%nat := byte (Z.shiftr v 48)]> b in
  let b := <[2%nat := byte (Z.shiftr v 40)]> b in
  let b := <[3%nat := byte (Z.shiftr v 32)]> b in
  let b := <[4%nat := byte (Z.shiftr v 24)]> b in
  let b := <[5%nat := byte (Z.shiftr v 16)]> b in
  let b := <[6%nat := byte (Z.shiftr v 8)]> b in
  <[7%nat := byte v]> b.

Definition putI64 (b : list Z) (v : Z) : list Z := putU64 b (uint64 v).

(** The builtin [copy(dst, src)]: the first [min(len dst, len src)]
    bytes of [dst] are overwritten. *)
Definition copy (dst src : list Z) : list Z :=
  firstn (length dst) src ++ skipn (length src) dst.

(** The hasher [h] of [digest] after its last [Write]. *)
Definition digest_h (r : Receipt) : SHA256.Hash :=
  let h := SHA256.New in
  let h := SHA256.Write h (of_string DomainTag) in
  let h := SHA256.Write h [Version r] in
  let pathBytes := of_string (Path r) in
  let lb := zeros 2 in
  let lb := PutUint16 lb (uint16 (len pathBytes)) in
  let h := SHA256.Write h lb in
  let h := SHA256.Write h pathBytes in
  let b8 := zeros 8 in
  let b8 := putU64 b8 (Seq r) in
  let h := SHA256.Write h b8 in
  let b8 := putI64 b8 (Size r) in
  let h := SHA256.Write h b8 in
  let b8 := putI64 b8 (Deadline r) in
  let h := SHA256.Write h b8 in
  let b8 := putI64 b8 (Recv r) in
  let h := SHA256.Write h b8 in
  let h := SHA256.Write h (Commit r) in
  let b8 := putU64 b8 (Nonce r) in
  SHA256.Write h b8.

Definition digest (r : Receipt) : list Z :=
  let h := digest_h r in
  let out := zeros 32 in
  copy out (SHA256.Sum h []).

(** *** The layout as the specification words it *)

(** The [n] low base-256 digits of [v], most significant first. *)
Fixpoint big_endian (n : nat) (v : Z) : list Z :=
  match n with
  | O => []
  | S n' => big_endian n' (v / 256) ++ [v mod 256]
  end.

(** The 64-bit two's-complement bit pattern of a signed value. *)
Definition twos_complement64 (v : Z) : Z :=
  if v <? 0 then v + 2 ^ 64 else v.

Definition layout (r : Receipt) : list Z :=
  of_string "SlowDrip:PoS-Receipt:v1" ++
  [Version r] ++
  big_endian 2 (len (of_string (Path r))) ++ of_string (Path r) ++
  big_endian 8 (Seq r) ++
  big_endian 8 (twos_complement64 (Size r)) ++
  big_endian 8 (twos_complement64 (Deadline r)) ++
  big_endian 8 (twos_complement64 (Recv r)) ++
  Commit r ++
  big_endian 8 (Nonce r).
(** *** crypto/ed25519 *)

(** The three operations of the library the package calls.
    [GenerateKey] is applied to the 32 bytes read from the entropy source
    and returns [(pub, priv)]; [Sign priv msg]; [Verify pub msg sig]. *)
Record Ed25519 := {
  ed_GenerateKey : list Z -> list Z * list Z;
  ed_Sign : list Z -> list Z -> list Z;
  ed_Verify : list Z -> list Z -> list Z -> bool
}.

Definition PublicKeySize : Z := 32.
Definition PrivateKeySize : Z := 64.
Definition SignatureSize : Z := 64.
Definition SeedSize : Z := 32.

(** What the library documents: key and signature sizes, and that a
    signature made with a generated private key verifies under the
    matching public key. *)
Definition Ed25519_contract (E : Ed25519) : Prop :=
  (forall seed, len seed = SeedSize ->
     len (fst (ed_GenerateKey E seed)) = PublicKeySize /\
     len (snd (ed_GenerateKey E seed)) = PrivateKeySize) /\
  (forall priv msg, len priv = PrivateKeySize ->
     len (ed_Sign E priv msg) = SignatureSize) /\
  (forall seed msg, len seed = SeedSize ->
     ed_Verify E (fst (ed_GenerateKey E seed)) msg
       (ed_Sign E (snd (ed_GenerateKey E seed)) msg) = true).

(** What a read of [SeedSize] bytes from [crypto/rand.Reader] gives:
    an error, or the bytes. *)
Inductive entropy : Type :=
| ReadError (msg : string)
| ReadBytes (seed : list Z).

(** *** The session signer *)

(** [priv] and [pub] are [None] for a nil slice. *)
Record SessionSigner := {
  priv : option (list Z);
  pub : option (list Z);
  sessionID : string;
  started : Time.Time
}.

Definition NewSessionSigner (E : Ed25519) (rand : entropy) (now : Time.Time)
    (sessionID : string) : option SessionSigner * error :=
  match rand with
  | ReadError msg => (None, Some msg)
  | ReadBytes seed =>
      let '(pub, priv) := ed_GenerateKey E seed in
      (Some {| priv := Some priv; pub := Some pub;
               sessionID := sessionID; started := now |}, None)
  end.


(** [for i := range s.priv { s.priv[i] = 0 }]. *)
Definition Close (s : SessionSigner) : SessionSigner :=
  match priv s with
  | None => s
  | Some k =>
      {| priv := Some (fold_left (fun k i => <[i := 0]> k) (seq 0 (length k)) k);
         pub := pub s; sessionID := sessionID s; started := started s |}
  end.

Definition FromSegment (sr : Service.SegmentReceipt) (nonce : Z) : Receipt :=
  {| Version := ReceiptVersion;
     Path := Service.Path sr;
     Seq := Service.Seq sr;
     Size := Service.Size sr;
     Deadline := Time.UnixNano (Service.Deadline sr);
     Recv := Time.UnixNano (Service.Recv sr);
     Commit := Service.Commit sr;
     Nonce := nonce;
     PubKey := [];
     Sig := [] |}.

Definition set_PubKey (r : Receipt) (k : list Z) : Receipt :=
  {| Version := Version r; Path := Path r; Seq := Seq r; Size := Size r;
     Deadline := Deadline r; Recv := Recv r; Commit := Commit r;
     Nonce := Nonce r; PubKey := k; Sig := Sig r |}.

Definition set_Sig (r : Receipt) (sg : list Z) : Receipt :=
  {| Version := Version r; Path := Path r; Seq := Seq r; Size := Size r;
     Deadline := Deadline r; Recv := Recv r; Commit := Commit r;
     Nonce := Nonce r; PubKey := PubKey r; Sig := sg |}.

(** [Sign] on a signer pointer ([None] for nil) and the receipt [*r];
    returns the receipt as the call leaves it and the error.
    [append(r.PubKey[:0], s.pub...)] leaves [r.PubKey] with the bytes of
    [s.pub], and likewise for [r.Sig] (the two slices of a receipt have
    separate backing arrays).  [ed25519.Sign] panics on a private key
    that is not [PrivateKeySize] long. *)
Definition Sign (E : Ed25519) (s : option SessionSigner) (r : Receipt)
  : outcome (Receipt * error) :=
  match s with
  | None => Return (r, Some "signer not initialized"%string)
  | Some s =>
      match priv s, pub s with
      | Some priv, Some pub =>
          let d := digest r in
          let r := set_PubKey r (firstn 0 (PubKey r) ++ pub) in
          if len priv =? PrivateKeySize then
            let sig := ed_Sign E priv d in
            let r := set_Sig r (firstn 0 (Sig r) ++ sig) in
            Return (r, None)
          else Panics
      | _, _ => Return (r, Some "signer not initialized"%string)
      end
  end.

Definition Verify (E : Ed25519) (r : Receipt) : error :=
  if negb (len (PubKey r) =? PublicKeySize) then
    Some "invalid pubkey length"%string
  else if negb (len (Sig r) =? SignatureSize) then
    Some "invalid signature length"%string
  else
    let d := digest r in
    if negb (ed_Verify E (PubKey r) d (Sig r)) then
      Some "bad signature"%string
    else None.


Definition signAndReturn (E : Ed25519) (s : option SessionSigner) (r : Receipt)
  : outcome (option Receipt * error) :=
  match Sign E s r with
  | Return (_, Some err) => Return (None, Some err)
  | Return (r', None) => Return (Some r', None)
  | Panics => Panics
  end.

Definition BuildAndSign (E : Ed25519) (s : option SessionSigner)
    (sr : Service.SegmentReceipt) (nonce : Z)
  : outcome (option Receipt * error) :=
  let r := FromSegment sr nonce in
  signAndReturn E s r.

(** *** Batching and anchoring *)

Definition MerkleLeaf (r : Receipt) : list Z :=
  let d := digest r in
  let h := SHA256.New in
  let h := SHA256.Write h (of_string "leaf") in
  let h := SHA256.Write h d in
  let out := zeros 32 in
  copy out (SHA256.Sum h []).

(** The loop of [merkleize] over a level of even length: one node per
    adjacent pair. *)
Fixpoint pair_up (nodes : list (list Z)) : list (list Z) :=
  match nodes with
  | a :: b :: rest =>
      let h := SHA256.New in
      let h := SHA256.Write h a in
      let h := SHA256.Write h b in
      let out := zeros 32 in
      copy out (SHA256.Sum h []) :: pair_up rest
  | _ => []
  end.

(** [merkleize], with the depth of the recursion bounded by [depth];
    [None] when the bound is reached before a level has one node. *)
Fixpoint merkleize (depth : nat) (nodes : list (list Z)) : option (list Z) :=
  match depth with
  | O => None
  | S depth' =>
      if len nodes =? 1 then Some (nth 0 nodes [])
      else
        let nodes :=
          if len nodes mod 2 =? 1
          then nodes ++ [nth (Z.to_nat (len nodes - 1)) nodes []]
          else nodes in
        let next := pair_up nodes in
        merkleize depth' next
  end.

(** [MerkleRoot]; the recursion of [merkleize] is given as many levels as
    there are leaves. *)
Definition MerkleRoot (receipts : list Receipt) : option (list Z) :=
  if len receipts =? 0 then Some (zeros 32)
  else
    let leaves := map MerkleLeaf receipts in
    merkleize (length leaves) leaves.

(** [hex.EncodeToString]. *)
Definition hextable : list ascii := list_ascii_of_string "0123456789abcdef".

Definition EncodeToString (src : list Z) : string :=
  string_of_list_ascii
    (flat_map (fun v => [ nth (Z.to_nat (Z.shiftr v 4)) hextable "0"%char;
                          nth (Z.to_nat (Z.land v 15)) hextable "0"%char ])
              src).

(** The [less] closure handed to [sort.Slice], on the two elements. *)
Definition less (a b : Receipt) : bool :=
  if String.eqb (Path a) (Path b) then Seq a <? Seq b
  else String.ltb (Path a) (Path b).

(** [sort.Slice] with that closure, as a function from the contents of
    the slice before the call to its contents after. *)
Definition Sorter : Type := list Receipt -> list Receipt.

(** What [sort.Slice] documents: the slice is rearranged (not stably) so
    that no element is less than the one before it. *)
Definition Sorter_contract (sort_Slice : Sorter) : Prop :=
  forall rs,
    sort_Slice rs ≡ₚ rs /\
    Sorted (fun a b => less b a = false) (sort_Slice rs).


Definition AggregateAnchor (sort_Slice : Sorter) (rs : list Receipt)
  : option string :=
  if len rs =? 0 then Some ""%string
  else
    let rs := sort_Slice rs in
    match MerkleRoot rs with
    | Some root => Some (EncodeToString root)
    | None => None
    end.
(** *** The order of the anchor, as the specification words it *)

(** The pair a batch is sorted by. *)
Definition key (r : Receipt) : string * Z := (Path r, Seq r).

(** [(path, sequence)] ascending: by path, bytewise, then by sequence. *)
Definition key_le (a b : Receipt) : Prop :=
  String.compare (Path a) (Path b) = Lt \/
  (Path a = Path b /\ Seq a <= Seq b).

(** *** Instances of the two interfaces *)

Fixpoint bytes_eqb (a b : list Z) : bool :=
  match a, b with
  | [], [] => true
  | x :: a', y :: b' => (x =? y) && bytes_eqb a' b'
  | _, _ => false
  end.

(** A scheme with the sizes and the sign-then-verify behaviour of the
    library (and none of its security): the public key is a hash of the
    seed, the private key is the seed followed by the public key as in
    Ed25519, and a signature is two hashes over the public key and the
    message. *)
Definition hash_sign (pk msg : list Z) : list Z :=
  SHA256.Sum256 (pk ++ msg) ++ SHA256.Sum256 (msg ++ pk).

Definition HashScheme : Ed25519 :=
  {| ed_GenerateKey := fun seed =>
       let pk := SHA256.Sum256 seed in (pk, seed ++ pk);
     ed_Sign := fun priv msg => hash_sign (skipn 32 priv) msg;
     ed_Verify := fun pk msg sg => bytes_eqb sg (hash_sign pk msg) |}.

(** stdpp's merge sort on the order of [less]. *)
Definition in_order (a b : Receipt) : Prop := less b a = false.

#[global] Instance in_order_dec : RelDecision in_order :=
  fun a b => bool_eq_dec (less b a) false.

Definition merge_Sorter : Sorter := merge_sort in_order.
(** The number a byte string spells, most significant byte first. *)
Definition be_value (l : list Z) : Z :=
  fold_left (fun acc b => acc * 256 + b) l 0.
(** A receipt without its signature: [PubKey] and [Sig] emptied. *)
Definition unsigned (r : Receipt) : Receipt := set_Sig (set_PubKey r []) [].
End Receipts.

(** ** Sample values *)

Module Samples.
Import Bytes.
Local Open Scope Z_scope.

Definition t0 : Time.Time := 1700000000000000000.

Definition seg1 : Service.SegmentReceipt :=
  Service.observation "live/stream" 1 1000 t0 t0.

Definition receipt1 : Receipts.Receipt := Receipts.FromSegment seg1 7.

Definition receipt_a2 : Receipts.Receipt :=
  Receipts.FromSegment (Service.observation "a" 2 500 t0 t0) 1.

Definition receipt_b1 : Receipts.Receipt :=
  Receipts.FromSegment (Service.observation "b" 1 500 t0 t0) 2.

Definition seed0 : list Z := repeat 7 32.

Definition signer0 : Receipts.SessionSigner :=
  {| Receipts.priv := Some (snd (Receipts.ed_GenerateKey Receipts.HashScheme seed0));
     Receipts.pub := Some (fst (Receipts.ed_GenerateKey Receipts.HashScheme seed0));
     Receipts.sessionID := "s0";
     Receipts.started := t0 |}.

(** Two on-time observations whose sizes add up to [2 ^ 63]. *)
Definition overflow_obs : list Service.SegmentReceipt :=
  [ Service.observation "p" 1 (2 ^ 63 - 1) t0 t0;
    Service.observation "p" 2 1 t0 t0 ].

(** On time, late by one nanosecond, early, and one for another path. *)
Definition mixed_obs : list Service.SegmentReceipt :=
  [ Service.observation "p" 1 1000 t0 t0;
    Service.observation "p" 2 700 t0 (Time.Add t0 1);
    Service.observation "p" 3 300 t0 (t0 - 5);
    Service.observation "q" 1 50 t0 t0 ].

(** Sixty-six on-time observations for one path. *)
Definition many_obs : list Service.SegmentReceipt :=
  map (fun i => Service.observation "p" (Z.of_nat i) 1 t0 t0) (seq 1 66).

(** [receipt_a2] signed by [signer0]. *)
Definition receipt_a2_signed : Receipts.Receipt :=
  match Receipts.Sign Receipts.HashScheme (Some signer0) receipt_a2 with
  | Return (r, _) => r
  | Panics => receipt_a2
  end.

(** The agent after [mixed_obs]. *)
Definition agent_after_mixed : Service.Agent :=
  match Service.add_all Service.New mixed_obs with
  | Return a => a
  | Panics => Service.New
  end.
End Samples.

(** ** internal/service: the periodic flush *)

Module Flush.
Import Bytes Service.
Local Open Scope Z_scope.

(** The calls [flush] makes on the logger, in order. *)
Inductive LogEvent : Type :=
| NoPathsYet
| QosWindow (path : string) (last_seq accepted late bytes : Z) (anchor : string)
| GlobalAnchor (global_anchor : string).

(** [sort.Strings], as a function from the contents of the slice before
    the call to its contents after, and what it documents: the strings
    are put in increasing order. *)
Definition StringSorter : Type := list string -> list string.

Definition StringSorter_contract (sort_Strings : StringSorter) : Prop :=
  forall l,
    sort_Strings l ≡ₚ l /\
    Sorted (fun a b => String.ltb b a = false) (sort_Strings l).

(** The loop of [flush] over the sorted keys.  [a.perPath[p]] is a nil
    pointer for a key that is not in the map, and reading its fields
    panics. *)
Fixpoint flush_paths (perPath : gmap string streamStats) (keys : list string)
    (global : SHA256.Hash) (log : list LogEvent)
  : outcome (SHA256.Hash * list LogEvent) :=
  match keys with
  | [] => Return (global, log)
  | p :: keys' =>
      match perPath !! p with
      | None => Panics
      | Some st =>
          let pathAnchor := Receipts.EncodeToString (rolling st) in
          let log :=
            log ++ [QosWindow p (LastSeq st) (Accepted st) (Late st)
                      (Service.Bytes st) pathAnchor] in
          let global := SHA256.Write global (of_string p) in
          let global := SHA256.Write global (rolling st) in
          flush_paths perPath keys' global log
      end
  end.

(** [flush] at time [now]; [iteration] is the order in which the
    [range] over the map yields its keys.  Returns the agent as the call
    leaves it and the log calls made. *)
Definition flush (sort_Strings : StringSorter) (iteration : list string)
    (now : Time.Time) (a : Agent) : outcome (Agent * list LogEvent) :=
  if Z.of_nat (size (perPath a)) =? 0 then Return (a, [NoPathsYet])
  else
    let keys := fold_left (fun keys k => keys ++ [k]) iteration [] in
    let keys := sort_Strings keys in
    match flush_paths (perPath a) keys SHA256.New [] with
    | Panics => Panics
    | Return (global, log) =>
        let ga := Receipts.EncodeToString (SHA256.Sum global []) in
        Return ({| perPath := perPath a; lastFlush := now;
                   flushInterval := flushInterval a;
                   maxRecent := maxRecent a |},
                log ++ [GlobalAnchor ga])
    end.

(** The path a log call is about. *)
Definition logged_path (e : LogEvent) : option string :=
  match e with
  | QosWindow p _ _ _ _ _ => Some p
  | _ => None
  end.

(** The keys of the map of an agent. *)
Definition known_paths (a : Agent) : list string :=
  (map_to_list (perPath a)).*1.

(** The bytes hashed into the global anchor for the keys [keys]. *)
Definition global_input (perPath : gmap string streamStats)
    (keys : list string) : list Z :=
  flat_map (fun p => of_string p ++
                     match perPath !! p with
                     | Some st => rolling st
                     | None => []
                     end) keys.

(** stdpp's merge sort on the order of strings. *)
Definition str_le (a b : string) : Prop := String.ltb b a = false.

#[global] Instance str_le_dec : RelDecision str_le :=
  fun a b => bool_eq_dec (String.ltb b a) false.

Definition merge_Strings : StringSorter := merge_sort str_le.
End Flush.

(** * Proofs *)

Local Open Scope Z_scope.
Import Bytes Receipts.

(** ** Bytes, SHA-256 output and big-endian encodings *)

Lemma byte_mod v : Bytes.byte v = v mod 256.
Proof. unfold Bytes.byte. change 255 with (Z.ones 8). rewrite Z.land_ones by lia. reflexivity. Qed.

Lemma byte_range v : 0 <= Bytes.byte v < 256.
Proof. rewrite byte_mod. apply Z.mod_pos_bound. lia. Qed.

Lemma byte_shiftr v k : 0 <= k -> Bytes.byte (Z.shiftr v k) = (v / 2 ^ k) mod 256.
Proof. intros. rewrite byte_mod, Z.shiftr_div_pow2 by lia. reflexivity. Qed.

Lemma Sum256_length m : length (SHA256.Sum256 m) = 32%nat.
Proof. reflexivity. Qed.

Lemma Sum256_bytes m : Forall (fun b => 0 <= b < 256) (SHA256.Sum256 m).
Proof.
  unfold SHA256.Sum256, SHA256.output, SHA256.be32.
  repeat (apply Forall_app; split); repeat (apply Forall_cons; split; [apply byte_range|]); apply Forall_nil; exact I.
Qed.

Lemma putU64_bytes b v : length b = 8%nat ->
  Receipts.putU64 b v =
  [ Bytes.byte (Z.shiftr v 56); Bytes.byte (Z.shiftr v 48); Bytes.byte (Z.shiftr v 40);
    Bytes.byte (Z.shiftr v 32); Bytes.byte (Z.shiftr v 24); Bytes.byte (Z.shiftr v 16);
    Bytes.byte (Z.shiftr v 8); Bytes.byte v ].
Proof.
  intros H. do 9 (destruct b as [|? b]; try discriminate H). reflexivity.
Qed.

Lemma big_endian_8 v :
  [ Bytes.byte (Z.shiftr v 56); Bytes.byte (Z.shiftr v 48); Bytes.byte (Z.shiftr v 40);
    Bytes.byte (Z.shiftr v 32); Bytes.byte (Z.shiftr v 24); Bytes.byte (Z.shiftr v 16);
    Bytes.byte (Z.shiftr v 8); Bytes.byte v ] = Receipts.big_endian 8 v.
Proof.
  rewrite !byte_shiftr by lia. rewrite byte_mod.
  cbn [Receipts.big_endian app].
  rewrite !Z.div_div by lia.
  reflexivity.
Qed.

(** ** The digest input is the documented layout *)

Lemma is_byte_spec b : is_byte b = true <-> 0 <= b < 256.
Proof. unfold is_byte. rewrite andb_true_iff, Z.leb_le, Z.ltb_lt. reflexivity. Qed.
Lemma is_uint64_spec b : is_uint64 b = true <-> 0 <= b < 2 ^ 64.
Proof. unfold is_uint64. rewrite andb_true_iff, Z.leb_le, Z.ltb_lt. reflexivity. Qed.
Lemma is_int64_spec b : is_int64 b = true <-> - 2 ^ 63 <= b < 2 ^ 63.
Proof. unfold is_int64. rewrite andb_true_iff, Z.leb_le, Z.ltb_lt. reflexivity. Qed.

Lemma uint64_twos v : - 2 ^ 63 <= v < 2 ^ 63 -> uint64 v = twos_complement64 v.
Proof.
  intros H. unfold uint64, twos_complement64.
  destruct (Z.ltb_spec v 0).
  - symmetry. apply Z.mod_unique with (q := -1); lia.
  - apply Z.mod_small. lia.
Qed.

Lemma PutUint16_big_endian n :
  PutUint16 (zeros 2) (uint16 n) = big_endian 2 n.
Proof.
  unfold PutUint16, zeros, uint16. cbn [repeat big_endian app].
  cbn. rewrite byte_shiftr by lia. rewrite byte_mod.
  f_equal; [|f_equal].
  - change (2 ^ 8) with 256. change (2^16) with 65536. Z.div_mod_to_equations. lia.
  - change (2^16) with 65536. Z.div_mod_to_equations. lia.
Qed.

Lemma putU64_length b v : length (putU64 b v) = length b.
Proof. unfold putU64. rewrite !length_insert. reflexivity. Qed.

Lemma putU64_big_endian b v : length b = 8%nat -> putU64 b v = big_endian 8 v.
Proof. intros. rewrite putU64_bytes by assumption. apply big_endian_8. Qed.

Lemma putI64_big_endian b v : length b = 8%nat -> is_int64 v = true ->
  putI64 b v = big_endian 8 (twos_complement64 v).
Proof.
  intros Hb Hv. unfold putI64. rewrite putU64_big_endian by assumption.
  rewrite uint64_twos by (apply is_int64_spec; assumption). reflexivity.
Qed.

Lemma putI64_length b v : length (putI64 b v) = length b.
Proof. apply putU64_length. Qed.

Lemma copy_full dst src : length dst = length src -> copy dst src = src.
Proof.
  intros H. unfold copy. rewrite H, firstn_all, skipn_all2 by lia. apply app_nil_r.
Qed.

Lemma wf_receipt_spec r : wf_receipt r = true ->
  (0 <= Version r < 256) /\ (0 <= Seq r < 2 ^ 64) /\ is_int64 (Size r) = true /\
  is_int64 (Deadline r) = true /\ is_int64 (Recv r) = true /\
  length (Commit r) = 32%nat /\ Forall (fun b => 0 <= b < 256) (Commit r) /\
  (0 <= Nonce r < 2 ^ 64).
Proof.
  unfold wf_receipt. rewrite !andb_true_iff.
  intros [[[[[[[H1 H2] H3] H4] H5] H6] H7] H8].
  apply is_byte_spec in H1. apply is_uint64_spec in H2. apply is_uint64_spec in H8.
  apply Nat.eqb_eq in H6.
  repeat split; try assumption; try lia.
  rewrite forallb_forall in H7. apply Forall_forall. intros x Hx.
  apply is_byte_spec. apply H7. apply list_elem_of_In. assumption.
Qed.

Lemma digest_h_layout r : wf_receipt r = true ->
  SHA256.written (digest_h r) = layout r.
Proof.
  intros Hwf. apply wf_receipt_spec in Hwf.
  destruct Hwf as (_ & _ & Hsz & Hdl & Hrv & _ & _ & _).
  unfold digest_h, layout, SHA256.Write, SHA256.New, SHA256.written, DomainTag.
  rewrite PutUint16_big_endian.
  rewrite putU64_big_endian by reflexivity.
  rewrite (putI64_big_endian _ (Size r)) by (reflexivity || assumption).
  rewrite (putI64_big_endian _ (Deadline r)) by (reflexivity || assumption).
  rewrite (putI64_big_endian _ (Recv r)) by (reflexivity || assumption).
  rewrite putU64_big_endian by reflexivity.
  rewrite app_nil_l, <- !app_assoc. reflexivity.
Qed.

Lemma digest_Sum256 r : digest r = SHA256.Sum256 (SHA256.written (digest_h r)).
Proof.
  unfold digest, SHA256.Sum. rewrite app_nil_l. apply copy_full. reflexivity.
Qed.

Lemma digest_ext r r' : signed_fields r' = signed_fields r -> digest r' = digest r.
Proof.
  unfold signed_fields. intros H. injection H as H1 H2 H3 H4 H5 H6 H7 H8.
  unfold digest, digest_h. rewrite H1, H2, H3, H4, H5, H6, H7, H8. reflexivity.
Qed.

(** ** The layout is injective *)

Lemma big_endian_length n v : length (big_endian n v) = n.
Proof.
  revert v. induction n as [|n IH]; intros v; [reflexivity|].
  cbn [big_endian]. rewrite length_app, IH. cbn. lia.
Qed.

Lemma big_endian_inj n v w :
  0 <= v < 256 ^ Z.of_nat n -> 0 <= w < 256 ^ Z.of_nat n ->
  big_endian n v = big_endian n w -> v = w.
Proof.
  revert v w. induction n as [|n IH]; intros v w Hv Hw H.
  - change (256 ^ Z.of_nat 0) with 1 in *. lia.
  - cbn [big_endian] in H. apply app_inj_tail in H. destruct H as [Hq Hr].
    rewrite Nat2Z.inj_succ, Z.pow_succ_r in Hv, Hw by lia.
    assert (v / 256 = w / 256) as Hd.
    { apply IH; [| |assumption]; split;
        try (apply Z.div_pos; lia); apply Z.div_lt_upper_bound; lia. }
    rewrite (Z.div_mod v 256), (Z.div_mod w 256) by lia. congruence.
Qed.

Lemma twos_complement64_range v : - 2 ^ 63 <= v < 2 ^ 63 ->
  0 <= twos_complement64 v < 2 ^ 64.
Proof. unfold twos_complement64. destruct (Z.ltb_spec v 0); lia. Qed.

Lemma twos_complement64_inj v w :
  - 2 ^ 63 <= v < 2 ^ 63 -> - 2 ^ 63 <= w < 2 ^ 63 ->
  twos_complement64 v = twos_complement64 w -> v = w.
Proof.
  unfold twos_complement64.
  destruct (Z.ltb_spec v 0), (Z.ltb_spec w 0); lia.
Qed.

Lemma of_string_inj s t : of_string s = of_string t -> s = t.
Proof.
  unfold of_string. intros H.
  rewrite <- (string_of_list_ascii_of_string s), <- (string_of_list_ascii_of_string t).
  f_equal. revert H. generalize (list_ascii_of_string s) (list_ascii_of_string t).
  induction l as [|a l IH]; intros [|b l'] H; try discriminate; [reflexivity|].
  cbn in H. injection H as Hh Ht. f_equal; [|apply IH; assumption].
  apply N2Z.inj in Hh.
  rewrite <- (ascii_N_embedding a), <- (ascii_N_embedding b). congruence.
Qed.

Lemma layout_inj r1 r2 : wf_receipt r1 = true -> wf_receipt r2 = true ->
  layout r1 = layout r2 -> signed_fields r1 = signed_fields r2.
Proof.
  intros H1 H2 E.
  apply wf_receipt_spec in H1, H2.
  destruct H1 as (_ & Hs1 & Hz1 & Hd1 & Hr1 & Hc1 & _ & Hn1).
  destruct H2 as (_ & Hs2 & Hz2 & Hd2 & Hr2 & Hc2 & _ & Hn2).
  apply is_int64_spec in Hz1, Hz2, Hd1, Hd2, Hr1, Hr2.
  unfold layout in E.
  apply app_inv_head in E.
  apply app_inj_1 in E; [|reflexivity]. destruct E as [Ev E]. injection Ev as Ev.
  apply app_inj_1 in E; [|rewrite !big_endian_length; reflexivity].
  destruct E as [_ E].
  apply app_inj_2 in E;
    [|rewrite !length_app, !big_endian_length, Hc1, Hc2; reflexivity].
  destruct E as [Ep E]. apply of_string_inj in Ep.
  apply app_inj_1 in E; [|rewrite !big_endian_length; reflexivity].
  destruct E as [Es E].
  apply app_inj_1 in E; [|rewrite !big_endian_length; reflexivity].
  destruct E as [Ez E].
  apply app_inj_1 in E; [|rewrite !big_endian_length; reflexivity].
  destruct E as [Ed E].
  apply app_inj_1 in E; [|rewrite !big_endian_length; reflexivity].
  destruct E as [Er E].
  apply app_inj_1 in E; [|congruence].
  destruct E as [Ec En].
  change (2 ^ 64) with (256 ^ Z.of_nat 8) in Hs1, Hs2, Hn1, Hn2.
  apply big_endian_inj in Es; [|assumption..].
  apply big_endian_inj in En; [|assumption..].
  apply big_endian_inj in Ez;
    [|change (256 ^ Z.of_nat 8) with (2 ^ 64); apply twos_complement64_range; assumption..].
  apply big_endian_inj in Ed;
    [|change (256 ^ Z.of_nat 8) with (2 ^ 64); apply twos_complement64_range; assumption..].
  apply big_endian_inj in Er;
    [|change (256 ^ Z.of_nat 8) with (2 ^ 64); apply twos_complement64_range; assumption..].
  apply twos_complement64_inj in Ez, Ed, Er; try assumption.
  unfold signed_fields. congruence.
Qed.

(** ** Keys and signatures *)

Lemma bytes_eqb_refl a : bytes_eqb a a = true.
Proof. induction a as [|x a IH]; [reflexivity|]. cbn. rewrite Z.eqb_refl. exact IH. Qed.

Lemma HashScheme_contract : Ed25519_contract HashScheme.
Proof.
  unfold Ed25519_contract, HashScheme, SeedSize, PublicKeySize, PrivateKeySize,
    SignatureSize, len. cbn [ed_GenerateKey ed_Sign ed_Verify fst snd].
  split; [|split].
  - intros seed Hs. rewrite length_app, Sum256_length. lia.
  - intros sk msg _. unfold hash_sign. rewrite length_app, !Sum256_length. reflexivity.
  - intros seed msg Hs.
    rewrite skipn_app, skipn_all2 by lia.
    replace (32 - length seed)%nat with 0%nat by lia.
    apply bytes_eqb_refl.
Qed.

Lemma Close_zeroes_aux (k : list Z) n : (n <= length k)%nat ->
  fold_left (fun k i => <[i := 0]> k) (seq 0 n) k = repeat 0 n ++ drop n k.
Proof.
  induction n as [|n IH]; intros Hn; [reflexivity|].
  rewrite seq_S, fold_left_app, IH by lia. cbn [fold_left Nat.add].
  destruct (drop n k) as [|x rest] eqn:Hd.
  { apply (f_equal length) in Hd. rewrite length_drop in Hd. cbn in Hd. lia. }
  assert (drop (S n) k = rest) as ->.
  { replace (S n) with (n + 1)%nat by lia. rewrite <- drop_drop, Hd. reflexivity. }
  rewrite insert_app_r_alt by (rewrite repeat_length; lia).
  rewrite repeat_length, Nat.sub_diag. cbn [insert list_insert].
  change (S n) with (1 + n)%nat at 1. rewrite Nat.add_comm, repeat_app, <- app_assoc. reflexivity.
Qed.

Lemma Close_priv s k : priv s = Some k ->
  priv (Close s) = Some (zeros (length k)) /\ pub (Close s) = pub s.
Proof.
  intros H. unfold Close. rewrite H. cbn [priv pub]. split; [|reflexivity].
  rewrite Close_zeroes_aux by lia. rewrite drop_all, app_nil_r. reflexivity.
Qed.

Lemma digest_set r pk sg : digest (set_Sig (set_PubKey r pk) sg) = digest r.
Proof. apply digest_ext. reflexivity. Qed.

Section Signer.
Variable E : Ed25519.
Hypothesis E_ok : Ed25519_contract E.

Lemma NewSessionSigner_keys seed now sid s :
  len seed = SeedSize ->
  NewSessionSigner E (ReadBytes seed) now sid = (Some s, None) ->
  exists pk sk, pub s = Some pk /\ priv s = Some sk /\
    len pk = PublicKeySize /\ len sk = PrivateKeySize /\
    (forall msg, len (ed_Sign E sk msg) = SignatureSize) /\
    (forall msg, ed_Verify E pk msg (ed_Sign E sk msg) = true).
Proof.
  intros Hs H. destruct E_ok as (Hk & Hsg & Hv).
  specialize (Hk seed Hs). specialize (Hv seed).
  unfold NewSessionSigner in H.
  destruct (ed_GenerateKey E seed) as [pk sk]. cbn [fst snd] in *.
  injection H as <-. exists pk, sk. cbn [pub priv].
  destruct Hk as [Hp Hq]. repeat split; auto.
Qed.

Lemma Sign_ok s r pk sk : pub s = Some pk -> priv s = Some sk ->
  len sk = PrivateKeySize ->
  Sign E (Some s) r =
  Return (set_Sig (set_PubKey r pk) (ed_Sign E sk (digest r)), None).
Proof.
  intros Hp Hs Hl. unfold Sign. rewrite Hs, Hp, Hl, Z.eqb_refl. reflexivity.
Qed.

End Signer.


(** Merkle *)
Lemma copy32_Sum h : copy (zeros 32) (SHA256.Sum h []) = SHA256.Sum256 (SHA256.written h).
Proof. unfold SHA256.Sum. rewrite app_nil_l. apply copy_full. reflexivity. Qed.

Lemma MerkleLeaf_length r : length (MerkleLeaf r) = 32%nat.
Proof. unfold MerkleLeaf. rewrite copy32_Sum. apply Sum256_length. Qed.

Lemma pair_up_length nodes : length (pair_up nodes) = (length nodes / 2)%nat.
Proof.
  induction nodes as [nodes IH] using (induction_ltof1 _ (@length (list Z))).
  destruct nodes as [|a [|b rest]]; [reflexivity..|].
  cbn [pair_up length]. rewrite IH by (unfold ltof; cbn; lia).
  replace (S (S (length rest))) with (length rest + 1 * 2)%nat by lia.
  rewrite Nat.div_add by lia. lia.
Qed.

Lemma pair_up_hashes nodes : Forall (fun h => length h = 32%nat) (pair_up nodes).
Proof.
  induction nodes as [nodes IH] using (induction_ltof1 _ (@length (list Z))).
  destruct nodes as [|a [|b rest]]; [constructor..|].
  cbn [pair_up]. constructor.
  - rewrite copy32_Sum. apply Sum256_length.
  - apply IH. unfold ltof. cbn. lia.
Qed.

Lemma merkleize_returns depth nodes :
  (1 <= length nodes <= depth)%nat ->
  Forall (fun h => length h = 32%nat) nodes ->
  exists root, merkleize depth nodes = Some root /\ length root = 32%nat.
Proof.
  revert nodes. induction depth as [|depth IH]; intros nodes Hn Hh; [lia|].
  cbn [merkleize]. unfold len.
  destruct (Z.eqb_spec (Z.of_nat (length nodes)) 1) as [H1|H1].
  - destruct nodes as [|x [|y rest]]; cbn in H1; try lia.
    exists x. split; [reflexivity|]. inversion Hh; assumption.
  - apply IH; [|apply pair_up_hashes].
    rewrite pair_up_length.
    destruct (Z.of_nat (length nodes) mod 2 =? 1).
    + rewrite length_app. cbn [length].
      assert (2 <= length nodes)%nat by lia.
      split; [apply Nat.div_le_lower_bound; lia|].
      apply Nat.lt_succ_r. apply Nat.Div0.div_lt_upper_bound; lia.
    + assert (2 <= length nodes)%nat by lia.
      split; [apply Nat.div_le_lower_bound; lia|].
      apply Nat.lt_succ_r. apply Nat.Div0.div_lt_upper_bound; lia.
Qed.

Lemma MerkleRoot_returns rs :
  exists root, MerkleRoot rs = Some root /\ length root = 32%nat.
Proof.
  unfold MerkleRoot, len.
  destruct (Z.eqb_spec (Z.of_nat (length rs)) 0) as [H|H].
  - exists (zeros 32). split; reflexivity.
  - apply merkleize_returns.
    + rewrite length_map. lia.
    + apply Forall_forall. intros h Hin. apply list_elem_of_In, in_map_iff in Hin.
      destruct Hin as (r & <- & _). apply MerkleLeaf_length.
Qed.

(** Order *)
Lemma ascii_compare_refl a : Ascii.compare a a = Eq.
Proof. apply N.compare_refl. Qed.

Lemma compare_refl s : String.compare s s = Eq.
Proof. induction s as [|a s IH]; [reflexivity|]. cbn. rewrite ascii_compare_refl. exact IH. Qed.

Lemma compare_Lt_trans s1 s2 s3 :
  String.compare s1 s2 = Lt -> String.compare s2 s3 = Lt -> String.compare s1 s3 = Lt.
Proof.
  revert s2 s3. induction s1 as [|c1 s1 IH]; intros [|c2 s2] [|c3 s3]; cbn; try congruence.
  unfold Ascii.compare.
  destruct (N.compare_spec (N_of_ascii c1) (N_of_ascii c2)) as [E12|L12|G12]; try discriminate;
  destruct (N.compare_spec (N_of_ascii c2) (N_of_ascii c3)) as [E23|L23|G23]; try discriminate;
  intros H12 H23.
  - rewrite E12, E23, N.compare_refl. eapply IH; eassumption.
  - rewrite E12. apply N.compare_lt_iff in L23. rewrite L23. reflexivity.
  - rewrite <- E23. apply N.compare_lt_iff in L12. rewrite L12. reflexivity.
  - assert (N_of_ascii c1 < N_of_ascii c3)%N as L by (eapply N.lt_trans; eassumption).
    apply N.compare_lt_iff in L. rewrite L. reflexivity.
Qed.

Lemma in_order_key_le a b : in_order a b <-> key_le a b.
Proof.
  unfold in_order, less, key_le, String.ltb. split.
  - destruct (String.eqb_spec (Path b) (Path a)) as [E|N].
    + intros H. right. split; [congruence|]. apply Z.ltb_ge. assumption.
    + intros H. left. rewrite String.compare_antisym.
      destruct (String.compare (Path b) (Path a)) eqn:C; try discriminate; [|reflexivity].
      apply String.compare_eq_iff in C. contradiction.
  - intros [L|[E Hs]].
    + destruct (String.eqb_spec (Path b) (Path a)) as [E|N].
      * rewrite E, compare_refl in L. discriminate.
      * rewrite String.compare_antisym, L. reflexivity.
    + rewrite E, String.eqb_refl. apply Z.ltb_ge. assumption.
Qed.

Lemma key_le_trans a b c : key_le a b -> key_le b c -> key_le a c.
Proof.
  unfold key_le. intros [L1|[E1 S1]] [L2|[E2 S2]].
  - left. eapply compare_Lt_trans; eassumption.
  - left. rewrite <- E2. assumption.
  - left. rewrite E1. assumption.
  - right. split; [congruence|lia].
Qed.

Lemma key_le_antisym a b : key_le a b -> key_le b a -> key a = key b.
Proof.
  unfold key_le, key. intros [L1|[E1 S1]] [L2|[E2 S2]].
  - rewrite String.compare_antisym, L2 in L1. discriminate.
  - rewrite E2, compare_refl in L1. discriminate.
  - rewrite E1, compare_refl in L2. discriminate.
  - f_equal; [assumption|lia].
Qed.

Lemma key_le_total a b : key_le a b \/ key_le b a.
Proof.
  unfold key_le.
  destruct (String.compare (Path a) (Path b)) eqn:C.
  - apply String.compare_eq_iff in C.
    destruct (Z.le_ge_cases (Seq a) (Seq b)); [left|right]; right; split; auto.
  - left. left. reflexivity.
  - right. left. rewrite String.compare_antisym, C. reflexivity.
Qed.

#[local] Instance in_order_trans : Transitive in_order.
Proof. intros a b c. rewrite !in_order_key_le. apply key_le_trans. Qed.

#[local] Instance in_order_total : Total in_order.
Proof. intros a b. rewrite !in_order_key_le. apply key_le_total. Qed.

Lemma merge_Sorter_contract : Sorter_contract merge_Sorter.
Proof.
  intros rs. unfold merge_Sorter. split.
  - apply merge_sort_Permutation.
  - apply (Sorted_merge_sort in_order).
Qed.

Lemma NoDup_key_inj (rs : list Receipt) x y :
  NoDup (map key rs) -> In x rs -> In y rs -> key x = key y -> x = y.
Proof.
  induction rs as [|r rs IH]; intros Hnd Hx Hy Hk; [contradiction|].
  cbn in Hnd. apply NoDup_cons in Hnd. destruct Hnd as [Hn Hnd].
  destruct Hx as [<-|Hx], Hy as [<-|Hy]; auto.
  - exfalso. apply Hn. rewrite Hk. apply list_elem_of_In, in_map. assumption.
  - exfalso. apply Hn. rewrite <- Hk. apply list_elem_of_In, in_map. assumption.
Qed.

Lemma StronglySorted_weaken {A} (R S : A -> A -> Prop) l :
  (forall a b, R a b -> S a b) -> StronglySorted R l -> StronglySorted S l.
Proof.
  intros HRS. induction 1 as [|a l Hl IH Ha]; constructor; [assumption|].
  eapply Forall_impl; [exact Ha|]. intros b. apply HRS.
Qed.

Section Anchor.
Variable sort_Slice : Sorter.
Hypothesis sort_ok : Sorter_contract sort_Slice.

Lemma sorted_unique rs rs' :
  NoDup (map key rs) -> rs' ≡ₚ rs -> sort_Slice rs' = sort_Slice rs.
Proof.
  intros Hnd Hp.
  destruct (sort_ok rs) as [P1 S1]. destruct (sort_ok rs') as [P2 S2].
  apply (StronglySorted_unique_strong in_order).
  - intros x1 x2 H1 H2 O1 O2.
    apply (NoDup_key_inj rs); [assumption| | |].
    + apply list_elem_of_In. rewrite <- Hp, <- P2. assumption.
    + apply list_elem_of_In. rewrite <- P1. assumption.
    + apply key_le_antisym; apply in_order_key_le; assumption.
  - apply Sorted_StronglySorted; [apply in_order_trans|exact S2].
  - apply Sorted_StronglySorted; [apply in_order_trans|exact S1].
  - rewrite P2, P1. exact Hp.
Qed.

Lemma AggregateAnchor_returns rs : is_Some (AggregateAnchor sort_Slice rs).
Proof.
  unfold AggregateAnchor. destruct (len rs =? 0); [eexists; reflexivity|].
  destruct (MerkleRoot_returns (sort_Slice rs)) as (root & -> & _). eexists; reflexivity.
Qed.

End Anchor.

(** ** Known answers *)

(** The first and last round constants and the length of the table. *)
Example sha256_constants :
  length SHA256.K = 64%nat /\
  nth 0 SHA256.K 0 = 0x428a2f98 /\ nth 63 SHA256.K 0 = 0xc67178f2 /\
  SHA256.sa SHA256.init = 0x6a09e667 /\ SHA256.sh SHA256.init = 0x5be0cd19.
Proof. repeat split. Qed.

(** FIPS 180-4 examples: the empty input, one block, two blocks. *)
Example sha256_empty :
  SHA256.Sum256 [] =
  [0xe3;0xb0;0xc4;0x42;0x98;0xfc;0x1c;0x14;0x9a;0xfb;0xf4;0xc8;0x99;0x6f;0xb9;0x24;
   0x27;0xae;0x41;0xe4;0x64;0x9b;0x93;0x4c;0xa4;0x95;0x99;0x1b;0x78;0x52;0xb8;0x55].
Proof. vm_compute. reflexivity. Qed.

Example sha256_abc :
  SHA256.Sum256 (of_string "abc") =
  [0xba;0x78;0x16;0xbf;0x8f;0x01;0xcf;0xea;0x41;0x41;0x40;0xde;0x5d;0xae;0x22;0x23;
   0xb0;0x03;0x61;0xa3;0x96;0x17;0x7a;0x9c;0xb4;0x10;0xff;0x61;0xf2;0x00;0x15;0xad].
Proof. vm_compute. reflexivity. Qed.

Example sha256_two_blocks :
  SHA256.Sum256
    (of_string "abcdbcdecdefdefgefghfghighijhijkijkljklmklmnlmnomnopnopq") =
  [0x24;0x8d;0x6a;0x61;0xd2;0x06;0x38;0xb8;0xe5;0xc0;0x26;0x93;0x0c;0x3e;0x60;0x39;
   0xa3;0x3c;0xe4;0x59;0x64;0xff;0x21;0x67;0xf6;0xec;0xed;0xd4;0x19;0xdb;0x06;0xc1].
Proof. vm_compute. reflexivity. Qed.

Example hex_of_bytes : EncodeToString [0; 10; 171; 255] = "000aabff"%string.
Proof. reflexivity. Qed.

(** The length prefix is the length itself when it fits sixteen bits
    (and its low sixteen bits otherwise, as [uint16(len)] gives). *)
Lemma length_prefix_exact (p : string) :
  len (of_string p) < 2 ^ 16 ->
  exists b0 b1, big_endian 2 (len (of_string p)) = [b0; b1] /\
    256 * b0 + b1 = len (of_string p).
Proof.
  intros H. cbn [big_endian app].
  eexists _, _. split; [reflexivity|].
  assert (0 <= len (of_string p)) by (unfold len; lia).
  Z.div_mod_to_equations. lia.
Qed.

(** ** The canonical digest *)

(** C1.  For every receipt (with fields in the ranges of their Go types)
    [digest] is the SHA-256 of exactly the documented concatenation:
    the domain tag, the version byte, the path length on two bytes
    big-endian followed by the path bytes, the sequence number on eight
    bytes big-endian, size, deadline and receive time each as a 64-bit
    two's-complement pattern big-endian, the 32 commitment bytes, the
    nonce on eight bytes big-endian.  It is 32 bytes long, and receipts
    with the same signed fields have the same digest. *)
Theorem digest_canonical_layout (r : Receipt) :
  wf_receipt r = true ->
  digest r = SHA256.Sum256 (layout r) /\
  length (digest r) = 32%nat /\
  Forall (fun b => 0 <= b < 256) (digest r) /\
  (forall r', signed_fields r' = signed_fields r -> digest r' = digest r).
Proof.
  intros Hwf. rewrite digest_Sum256, digest_h_layout by exact Hwf.
  split; [reflexivity|]. split; [apply Sum256_length|]. split; [apply Sum256_bytes|].
  intros r' H. rewrite (digest_ext r r' H), digest_Sum256, digest_h_layout by exact Hwf.
  reflexivity.
Qed.

Lemma digest_canonical_layout_witness :
  wf_receipt Samples.receipt1 = true /\
  digest Samples.receipt1 = SHA256.Sum256 (layout Samples.receipt1) /\
  length (digest Samples.receipt1) = 32%nat.
Proof.
  assert (wf_receipt Samples.receipt1 = true) as Hwf by (vm_compute; reflexivity).
  split; [exact Hwf|].
  destruct (digest_canonical_layout Samples.receipt1 Hwf) as (H1 & H2 & _).
  split; [exact H1|exact H2].
Defined.

(** C5.  The bytes fed to the hash determine the signed fields: two
    receipts whose field tuples differ give different hash inputs,
    whatever the lengths of their paths. *)
Theorem digest_input_injective (r1 r2 : Receipt) :
  wf_receipt r1 = true -> wf_receipt r2 = true ->
  signed_fields r1 <> signed_fields r2 ->
  SHA256.written (digest_h r1) <> SHA256.written (digest_h r2).
Proof.
  intros H1 H2 Hne E. apply Hne.
  rewrite !digest_h_layout in E by assumption.
  apply layout_inj; assumption.
Qed.

Lemma digest_input_injective_witness :
  SHA256.written (digest_h Samples.receipt_a2) <>
  SHA256.written (digest_h Samples.receipt_b1).
Proof.
  apply (digest_input_injective Samples.receipt_a2 Samples.receipt_b1).
  - vm_compute. reflexivity.
  - vm_compute. reflexivity.
  - intros H. discriminate H.
Defined.

(** ** The session signer *)






(** ** The Merkle batcher *)

(** C3.  With no two receipts sharing [(path, sequence)], the anchor of a
    batch does not depend on the order its receipts come in. *)
Theorem anchor_permutation_invariant (sort_Slice : Sorter)
    (rs rs' : list Receipt) :
  Sorter_contract sort_Slice ->
  NoDup (map key rs) -> rs' ≡ₚ rs ->
  AggregateAnchor sort_Slice rs' = AggregateAnchor sort_Slice rs /\
  is_Some (AggregateAnchor sort_Slice rs).
Proof.
  intros Hc Hnd Hp. split; [|apply AggregateAnchor_returns].
  unfold AggregateAnchor, len.
  rewrite (Permutation_length Hp), (sorted_unique sort_Slice Hc rs rs' Hnd Hp).
  reflexivity.
Qed.

Lemma anchor_permutation_invariant_witness :
  AggregateAnchor merge_Sorter [Samples.receipt_b1; Samples.receipt_a2] =
  AggregateAnchor merge_Sorter [Samples.receipt_a2; Samples.receipt_b1].
Proof.
  apply (anchor_permutation_invariant merge_Sorter
           [Samples.receipt_a2; Samples.receipt_b1]
           [Samples.receipt_b1; Samples.receipt_a2]).
  - exact merge_Sorter_contract.
  - apply (bool_decide_unpack _). vm_compute. reflexivity.
  - apply perm_swap.
Defined.

(** C9, as the code has it.  For a batch that is not empty the anchor is
    the hex encoding of the Merkle root of the batch sorted by
    [(path, sequence)] ascending; for the empty batch [AggregateAnchor]
    returns the empty string, while [MerkleRoot] of no receipts is 32
    zero bytes. *)
Theorem anchor_sorted_root (sort_Slice : Sorter) (rs : list Receipt) :
  Sorter_contract sort_Slice ->
  (rs <> [] ->
   exists root,
     sort_Slice rs ≡ₚ rs /\
     StronglySorted key_le (sort_Slice rs) /\
     MerkleRoot (sort_Slice rs) = Some root /\ length root = 32%nat /\
     AggregateAnchor sort_Slice rs = Some (EncodeToString root)) /\
  AggregateAnchor sort_Slice [] = Some ""%string /\
  MerkleRoot [] = Some (zeros 32).
Proof.
  intros Hc. split; [|split; reflexivity].
  intros Hne. destruct (Hc rs) as [P S].
  destruct (MerkleRoot_returns (sort_Slice rs)) as (root & Hr & Hl).
  exists root. repeat split; try assumption.
  - apply Sorted_StronglySorted in S; [|apply in_order_trans].
    eapply StronglySorted_weaken; [|exact S]. intros a b. apply in_order_key_le.
  - unfold AggregateAnchor, len. destruct rs; [contradiction|].
    cbn [length]. rewrite Hr. reflexivity.
Qed.

Lemma anchor_sorted_root_witness :
  exists root,
    MerkleRoot (merge_Sorter [Samples.receipt_b1; Samples.receipt_a2]) = Some root /\
    AggregateAnchor merge_Sorter [Samples.receipt_b1; Samples.receipt_a2] =
      Some (EncodeToString root).
Proof.
  destruct (anchor_sorted_root merge_Sorter
              [Samples.receipt_b1; Samples.receipt_a2] merge_Sorter_contract)
    as [H _].
  destruct H as (root & _ & _ & Hr & _ & Ha); [discriminate|].
  exists root. split; [exact Hr|exact Ha].
Defined.

(** C9, as stated, fails on the empty batch: the anchor is the empty
    string, not the hex encoding of the all-zero root. *)
Lemma anchor_of_empty_batch :
  MerkleRoot (merge_Sorter []) = Some (zeros 32) /\
  AggregateAnchor merge_Sorter [] = Some ""%string /\
  AggregateAnchor merge_Sorter [] <> Some (EncodeToString (zeros 32)).
Proof. split; [reflexivity|]. split; [reflexivity|]. discriminate. Qed.

(** The batches of the end-to-end scenarios: a signed receipt verifies
    and the anchor of the batch holding it alone is the hex of its leaf
    hash; the two-receipt batch is put in path order. *)
Example anchor_single_receipt :
  match Sign HashScheme (Some Samples.signer0) Samples.receipt1 with
  | Return (r', None) =>
      Verify HashScheme r' = None /\
      AggregateAnchor merge_Sorter [r'] = Some (EncodeToString (MerkleLeaf r'))
  | _ => False
  end.
Proof. vm_compute. split; reflexivity. Qed.

Example anchor_sorts_by_path :
  merge_Sorter [Samples.receipt_b1; Samples.receipt_a2] =
  [Samples.receipt_a2; Samples.receipt_b1].
Proof. vm_compute. reflexivity. Qed.

Import Service.

(** ** Counters, the ring and the history of an agent *)

Lemma int64_small v : - 2 ^ 63 <= v < 2 ^ 63 -> int64 v = v.
Proof. intros H. unfold int64. rewrite Z.mod_small by lia. lia. Qed.

Lemma int64_add_l a b : int64 (int64 a + b) = int64 (a + b).
Proof.
  unfold int64.
  replace ((a + 2 ^ 63) mod 2 ^ 64 - 2 ^ 63 + b + 2 ^ 63)
    with ((a + 2 ^ 63) mod 2 ^ 64 + b) by lia.
  rewrite Zplus_mod_idemp_l. f_equal. f_equal. lia.
Qed.

Lemma onTime_rule r :
  negb (Time.After (Recv r) (Deadline r)) = on_time r.
Proof. unfold Time.After, on_time. rewrite Z.leb_antisym. reflexivity. Qed.

Lemma last_n_snoc {A} n (l : list A) x :
  last_n n (last_n n l ++ [x]) = last_n n (l ++ [x]).
Proof.
  unfold last_n. rewrite !length_app, length_drop. cbn [length].
  destruct (Nat.le_gt_cases (length l) n) as [Hle|Hgt].
  - replace (length l - n)%nat with 0%nat by lia. rewrite drop_0, Nat.sub_0_r. reflexivity.
  - destruct n as [|n].
    + rewrite !drop_ge; [reflexivity| |]; rewrite length_app, ?length_drop; cbn; lia.
    + rewrite (drop_app_le l) by lia.
      rewrite drop_app_le by (rewrite length_drop; lia).
      rewrite drop_drop. f_equal. f_equal. lia.
Qed.

Lemma last_n_length {A} n (l : list A) : (length (last_n n l) <= n)%nat.
Proof. unfold last_n. rewrite length_drop. lia. Qed.


(** The ring step of [add_stats]. *)
Lemma ring_slice (cap : Z) (ring : list (list Z)) c :
  0 <= cap -> len ring <= cap -> (cap <? len (ring ++ [c])) = true ->
  slice_from (ring ++ [c]) (int64 (len (ring ++ [c]) - cap)) =
  Return (last_n (Z.to_nat cap) (ring ++ [c])).
Proof.
  intros Hc Hr H. apply Z.ltb_lt in H. unfold slice_from, last_n, len in *.
  rewrite length_app in *. cbn [length] in *.
  assert (Z.of_nat (length ring + 1) - cap = 1) as -> by lia.
  rewrite int64_small by lia.
  replace ((0 <=? 1) && (1 <=? Z.of_nat (length ring + 1))) with true
    by (symmetry; apply andb_true_iff; split; apply Z.leb_le; lia).
  f_equal. f_equal. lia.
Qed.

Lemma ring_keep (cap : Z) (ring : list (list Z)) c :
  (cap <? len (ring ++ [c])) = false ->
  ring ++ [c] = last_n (Z.to_nat cap) (ring ++ [c]).
Proof.
  intros H. apply Z.ltb_ge in H. unfold last_n, len in *.
  replace (length (ring ++ [c]) - Z.to_nat cap)%nat with 0%nat by lia.
  rewrite drop_0. reflexivity.
Qed.

Lemma tracks_zero cap : tracks cap zero_stats [].
Proof. repeat split. Qed.

Lemma filter_snoc {A} (f : A -> bool) l x :
  List.filter f (l ++ [x]) = List.filter f l ++ (if f x then [x] else []).
Proof. rewrite List.filter_app. reflexivity. Qed.

Lemma fold_right_add_snoc l x :
  fold_right Z.add 0 (l ++ [x]) = fold_right Z.add 0 l + x.
Proof. induction l as [|y l IH]; cbn; lia. Qed.

Lemma add_stats_tracks cap st ps r :
  0 <= cap -> tracks cap st ps ->
  exists st', add_stats cap st r = Return st' /\ tracks cap st' (ps ++ [r]).
Proof.
  intros Hc (Ha & Hl & Hb & Hr).
  unfold add_stats. rewrite onTime_rule.
  assert (len (recentCommits st) <= cap) as Hring.
  { rewrite Hr. unfold len. pose proof (last_n_length (Z.to_nat cap) (accepted_commits ps)). lia. }
  unfold tracks, accepted_count, late_count, accepted_bytes, accepted_commits.
  rewrite !filter_snoc.
  destruct (on_time r) eqn:Hot; cbn [negb].
  - assert (exists ring',
              (if cap <? len (recentCommits st ++ [Commit r])
               then slice_from (recentCommits st ++ [Commit r])
                      (int64 (len (recentCommits st ++ [Commit r]) - cap))
               else Return (recentCommits st ++ [Commit r])) = Return ring' /\
              ring' = last_n (Z.to_nat cap) (recentCommits st ++ [Commit r]))
      as (ring' & Hs & Hring').
    { destruct (cap <? len (recentCommits st ++ [Commit r])) eqn:Hlt.
      - eexists. split; [apply ring_slice; assumption|reflexivity].
      - eexists. split; [reflexivity|apply ring_keep; assumption]. }
    exists {| Accepted := int64 (Accepted st + 1); Late := Late st;
              Service.Bytes := int64 (Service.Bytes st + Size r);
              LastSeq := if LastSeq st <? Seq r then Seq r else LastSeq st;
              rolling := roll (rolling st) r; recentCommits := ring' |}.
    split.
    { destruct (cap <? len (recentCommits st ++ [Commit r])).
      - rewrite Hs. reflexivity.
      - injection Hs as <-. reflexivity. }
    cbn [Accepted Late Service.Bytes recentCommits].
    rewrite app_nil_r, !map_app. cbn [map].
    repeat split.
    + rewrite Ha, int64_add_l. f_equal. unfold accepted_count, len. rewrite length_app. cbn. lia.
    + exact Hl.
    + rewrite Hb, int64_add_l, fold_right_add_snoc. reflexivity.
    + rewrite Hring', Hr. apply last_n_snoc.
  - eexists. split; [reflexivity|]. cbn [Accepted Late Service.Bytes recentCommits].
    rewrite app_nil_r.
    repeat split; try assumption.
    rewrite Hl, int64_add_l. f_equal. unfold late_count, len. rewrite length_app. cbn. lia.
Qed.

Lemma add_all_app a obs obs' :
  add_all a (obs ++ obs') =
  match add_all a obs with
  | Return a' => add_all a' obs'
  | Panics => Panics
  end.
Proof.
  revert a. induction obs as [|r obs IH]; intros a; [reflexivity|].
  cbn [app add_all]. destruct (add a r); [apply IH|reflexivity].
Qed.

Lemma for_path_snoc p obs r :
  for_path p (obs ++ [r]) =
  for_path p obs ++ (if String.eqb (Path r) p then [r] else []).
Proof. unfold for_path. rewrite filter_snoc. reflexivity. Qed.

Lemma add_history cap a obs r :
  0 <= cap -> history_inv cap a obs ->
  exists a', add a r = Return a' /\ history_inv cap a' (obs ++ [r]).
Proof.
  intros Hc [Hm Hp]. unfold add.
  assert (tracks cap (match perPath a !! Path r with Some st => st | None => zero_stats end)
            (for_path (Path r) obs)) as Ht.
  { specialize (Hp (Path r)). destruct (perPath a !! Path r).
    - apply Hp.
    - rewrite Hp. apply tracks_zero. }
  rewrite Hm.
  destruct (add_stats_tracks cap _ _ r Hc Ht) as (st' & -> & Ht').
  eexists. split; [reflexivity|]. split; [reflexivity|].
  intros p. cbn [perPath]. rewrite for_path_snoc.
  destruct (String.eqb_spec (Path r) p) as [<-|Hne].
  - rewrite lookup_insert_eq. split; [|exact Ht'].
    intros E. apply app_eq_nil in E. destruct E as [_ E]. discriminate E.
  - rewrite lookup_insert_ne by assumption. rewrite app_nil_r. apply Hp.
Qed.

Lemma add_all_history a0 obs :
  perPath a0 = ∅ -> 0 <= maxRecent a0 ->
  exists a, add_all a0 obs = Return a /\ history_inv (maxRecent a0) a obs.
Proof.
  intros He Hc. induction obs as [|r obs IH] using rev_ind.
  - exists a0. split; [reflexivity|]. split; [reflexivity|].
    intros p. rewrite He, lookup_empty. reflexivity.
  - destruct IH as (a & Ha & Hi). rewrite add_all_app, Ha.
    destruct (add_history _ a obs r Hc Hi) as (a' & Ha' & Hi').
    exists a'. cbn [add_all]. rewrite Ha'. split; [reflexivity|exact Hi'].
Qed.

Lemma New_inv : agent_inv New.
Proof. split; [cbn; lia|]. intros p st H. cbn in H. rewrite lookup_empty in H. discriminate. Qed.

Lemma add_stats_returns cap st r :
  0 <= cap -> len (recentCommits st) <= cap ->
  exists st', add_stats cap st r = Return st' /\
    len (recentCommits st') <= cap /\
    (on_time r = true ->
       Accepted st' = int64 (Accepted st + 1) /\ Late st' = Late st) /\
    (on_time r = false ->
       Late st' = int64 (Late st + 1) /\ Accepted st' = Accepted st).
Proof.
  intros Hc Hr. unfold add_stats. rewrite onTime_rule.
  destruct (on_time r).
  - destruct (cap <? len (recentCommits st ++ [Commit r])) eqn:Hlt.
    + rewrite ring_slice by assumption. eexists. split; [reflexivity|].
      cbn [Accepted Late recentCommits]. split; [|split; [auto|discriminate]].
      pose proof (last_n_length (Z.to_nat cap) (recentCommits st ++ [Commit r])).
      unfold len. lia.
    + eexists. split; [reflexivity|].
      cbn [Accepted Late recentCommits]. split; [|split; [auto|discriminate]].
      apply Z.ltb_ge in Hlt. exact Hlt.
  - eexists. split; [reflexivity|].
    cbn [Accepted Late recentCommits]. split; [exact Hr|split; [discriminate|auto]].
Qed.

Lemma add_returns a r :
  agent_inv a ->
  exists a' st',
    add a r = Return a' /\ agent_inv a' /\
    perPath a' !! Path r = Some st' /\
    let st := match perPath a !! Path r with Some st => st | None => zero_stats end in
    (on_time r = true ->
       Accepted st' = int64 (Accepted st + 1) /\ Late st' = Late st) /\
    (on_time r = false ->
       Late st' = int64 (Late st + 1) /\ Accepted st' = Accepted st).
Proof.
  intros [Hc Hinv]. unfold add.
  set (st := match perPath a !! Path r with Some st => st | None => zero_stats end).
  assert (len (recentCommits st) <= maxRecent a) as Hr.
  { subst st. destruct (perPath a !! Path r) eqn:E; [eapply Hinv; exact E|exact Hc]. }
  destruct (add_stats_returns (maxRecent a) st r Hc Hr) as (st' & -> & Hr' & Hot).
  eexists. exists st'. split; [reflexivity|]. split; [|split].
  - split; [exact Hc|]. cbn [perPath maxRecent]. intros p s.
    destruct (decide (Path r = p)) as [<-|Hne].
    + rewrite lookup_insert_eq. intros [= <-]. exact Hr'.
    + rewrite lookup_insert_ne by assumption. apply Hinv.
  - cbn [perPath]. apply lookup_insert_eq.
  - exact Hot.
Qed.

Lemma count_bound (f : SegmentReceipt -> bool) ps :
  0 <= len (List.filter f ps) <= len ps.
Proof. unfold len. pose proof (List.filter_length_le f ps). lia. Qed.

Lemma AddReceipt_dropped r g :
  defaultAgent g = None -> AddReceipt r g = Return g.
Proof. intros H. unfold AddReceipt. rewrite H. reflexivity. Qed.

(** ** The QoS agent *)

(** C7.  An observation received exactly at its deadline is on time:
    [add] returns and the accepted count of the path is incremented, the
    late count kept.  One received a nanosecond after the deadline is
    late: the late count is incremented, the accepted count kept. *)
Theorem classification_boundary (a : Agent) (r : SegmentReceipt) :
  agent_inv a ->
  let st := match perPath a !! Path r with Some st => st | None => zero_stats end in
  (Recv r = Deadline r ->
     on_time r = true /\
     exists a' st', add a r = Return a' /\ perPath a' !! Path r = Some st' /\
       Accepted st' = int64 (Accepted st + 1) /\ Late st' = Late st) /\
  (Recv r = Time.Add (Deadline r) 1 ->
     on_time r = false /\
     exists a' st', add a r = Return a' /\ perPath a' !! Path r = Some st' /\
       Late st' = int64 (Late st + 1) /\ Accepted st' = Accepted st).
Proof.
  intros Hinv st.
  destruct (add_returns a r Hinv) as (a' & st' & Ha & _ & Hl & Hon & Hoff).
  split; intros Ht.
  - assert (on_time r = true) as Hot by (unfold on_time; apply Z.leb_le; lia).
    split; [exact Hot|]. exists a', st'. repeat split; try assumption; apply Hon; exact Hot.
  - assert (on_time r = false) as Hot
      by (unfold on_time, Time.Add in *; apply Z.leb_gt; lia).
    split; [exact Hot|]. exists a', st'. repeat split; try assumption; apply Hoff; exact Hot.
Qed.

Lemma classification_boundary_witness :
  exists a' st', add New Samples.seg1 = Return a' /\
    perPath a' !! "live/stream"%string = Some st' /\
    Accepted st' = 1 /\ Late st' = 0.
Proof.
  destruct (classification_boundary New Samples.seg1 New_inv) as [H _].
  destruct H as (_ & a' & st' & Ha & Hl & HA & HL); [reflexivity|].
  exists a', st'. split; [exact Ha|]. split; [exact Hl|]. split; [exact HA|exact HL].
Defined.

(** C6, as the code has it.  After a history recorded from an agent with
    no paths, the stats of a path hold the number of its on-time
    observations, the number of its late ones and the sum of the sizes
    of the on-time ones, each as an [int64], that is reduced modulo
    [2 ^ 64] into the signed range; they are the exact numbers whenever
    these fit.  A path never observed has no stats. *)
Theorem counters_track_history (a0 : Agent) (obs : list SegmentReceipt)
    (p : string) :
  perPath a0 = ∅ -> 0 <= maxRecent a0 ->
  let ps := for_path p obs in
  exists a, add_all a0 obs = Return a /\
    (ps = [] -> perPath a !! p = None) /\
    (ps <> [] ->
     exists st, perPath a !! p = Some st /\
       Accepted st = int64 (accepted_count ps) /\
       Late st = int64 (late_count ps) /\
       Service.Bytes st = int64 (accepted_bytes ps) /\
       (len ps < 2 ^ 63 ->
          Accepted st = accepted_count ps /\ Late st = late_count ps) /\
       (is_int64 (accepted_bytes ps) = true ->
          Service.Bytes st = accepted_bytes ps)).
Proof.
  intros He Hc ps.
  destruct (add_all_history a0 obs He Hc) as (a & Ha & _ & Hp).
  exists a. split; [exact Ha|]. specialize (Hp p). fold ps in Hp.
  destruct (perPath a !! p) as [st|].
  - destruct Hp as [Hne (HA & HL & HB & _)]. split; [contradiction|].
    intros _. exists st. split; [reflexivity|]. rewrite HA, HL, HB.
    split; [reflexivity|]. split; [reflexivity|]. split; [reflexivity|]. split.
    + intros Hlen. split; apply int64_small.
      * pose proof (count_bound on_time ps). unfold accepted_count. lia.
      * pose proof (count_bound (fun r => negb (on_time r)) ps). unfold late_count. lia.
    + intros Hfit. apply int64_small. apply is_int64_spec. exact Hfit.
  - split; [reflexivity|]. contradiction.
Qed.

Lemma counters_track_history_witness :
  exists a st, add_all New Samples.mixed_obs = Return a /\
    perPath a !! "p"%string = Some st /\
    Accepted st = 2 /\ Late st = 1 /\ Service.Bytes st = 1300.
Proof.
  destruct (counters_track_history New Samples.mixed_obs "p")
    as (a & Ha & _ & H); [reflexivity|cbn; lia|].
  destruct H as (st & Hl & _ & _ & _ & Hcount & Hbytes); [discriminate|].
  exists a, st. split; [exact Ha|]. split; [exact Hl|].
  destruct Hcount as [HA HL]; [vm_compute; reflexivity|].
  split; [exact HA|]. split; [exact HL|]. apply Hbytes. reflexivity.
Defined.

(** C6, as stated, fails: two on-time observations of [2 ^ 63 - 1] bytes
    and of one byte leave [Bytes] at [- 2 ^ 63], not at their sum. *)
Lemma Bytes_wraps_past_int64 :
  Service.Bytes <$> stats_after (add_all New Samples.overflow_obs) "p" =
    Some (- 2 ^ 63) /\
  accepted_count (for_path "p" Samples.overflow_obs) = 2 /\
  accepted_bytes (for_path "p" Samples.overflow_obs) = 2 ^ 63.
Proof. split; [|split]; vm_compute; reflexivity. Qed.



(** Sixty-six on-time observations: the two oldest commitments are gone. *)
Example ring_evicts_oldest :
  recentCommits <$> stats_after (add_all New Samples.many_obs) "p" =
  Some (drop 2 (map Commit Samples.many_obs)).
Proof. vm_compute. reflexivity. Qed.

(** C10.  While [defaultAgent] is nil, [AddReceipt] returns without
    recording anything and leaves the package state as it was, for one
    observation and for any sequence of them; this is the state of a
    process in which [Start] has not run. *)
Theorem AddReceipt_before_Start (g : Globals) (obs : list SegmentReceipt) :
  defaultAgent g = None ->
  (forall r, AddReceipt r g = Return g) /\
  AddReceipt_all obs g = Return g.
Proof.
  intros H. split; [intros r; apply AddReceipt_dropped; exact H|].
  induction obs as [|r obs IH]; [reflexivity|].
  cbn [AddReceipt_all]. rewrite AddReceipt_dropped by exact H. exact IH.
Qed.

Lemma AddReceipt_before_Start_witness :
  AddReceipt Samples.seg1 initial = Return initial /\
  AddReceipt_all Samples.mixed_obs initial = Return initial.
Proof.
  destruct (AddReceipt_before_Start initial Samples.mixed_obs) as [H1 H2];
    [reflexivity|].
  split; [apply H1|exact H2].
Defined.

(** Once [Start] has run its [once.Do], observations are recorded. *)
Example AddReceipt_after_Start :
  exists g a st,
    AddReceipt Samples.seg1 (Start_once Samples.t0 initial) = Return g /\
    defaultAgent g = Some a /\
    perPath a !! "live/stream"%string = Some st /\ Accepted st = 1.
Proof. eexists _, _, _. repeat split; vm_compute; reflexivity. Qed.

(** * Further properties of the receipts package *)

Import Receipts.

(** ** More on the signer *)


(** X1.  [Verify] returns nil exactly when both lengths are right and
    the library accepts the signature; otherwise the first failing check
    names the error: the public key length, then the signature length,
    then the signature. *)
Theorem Verify_outcomes (E : Ed25519) (r : Receipt) :
  (Verify E r = None <->
     len (PubKey r) = 32 /\ len (Sig r) = 64 /\
     ed_Verify E (PubKey r) (digest r) (Sig r) = true) /\
  (Verify E r = Some "invalid pubkey length"%string <->
     len (PubKey r) <> 32) /\
  (Verify E r = Some "invalid signature length"%string <->
     len (PubKey r) = 32 /\ len (Sig r) <> 64) /\
  (Verify E r = Some "bad signature"%string <->
     len (PubKey r) = 32 /\ len (Sig r) = 64 /\
     ed_Verify E (PubKey r) (digest r) (Sig r) = false).
Proof.
  unfold Verify, PublicKeySize, SignatureSize.
  destruct (Z.eqb_spec (len (PubKey r)) 32) as [Hp|Hp];
    destruct (Z.eqb_spec (len (Sig r)) 64) as [Hs|Hs];
    destruct (ed_Verify E (PubKey r) (digest r) (Sig r)) eqn:Hv;
    cbn [negb]; repeat split; try tauto; try discriminate;
    try (intros (? & ? & ?); congruence); try (intros (? & ?); congruence);
    try (intros ?; congruence).
Qed.




Lemma Close_pub s : pub (Close s) = pub s.
Proof. unfold Close. destruct (priv s); reflexivity. Qed.



Lemma Close_eq s k : priv s = Some k ->
  Close s = {| priv := Some (zeros (length k)); pub := pub s;
               sessionID := sessionID s; started := started s |}.
Proof.
  intros H. unfold Close. rewrite H. f_equal.
  rewrite Close_zeroes_aux by lia. rewrite drop_all, app_nil_r. reflexivity.
Qed.

(** X5.  [Close] overwrites every byte of the private key with zero and
    keeps its length and the rest of the signer; closing twice is closing
    once, and closing a signer without a private key changes nothing. *)
Theorem Close_wipes (s : SessionSigner) :
  (forall k, priv s = Some k -> priv (Close s) = Some (zeros (length k))) /\
  (priv s = None -> Close s = s) /\
  pub (Close s) = pub s /\ sessionID (Close s) = sessionID s /\
  started (Close s) = started s /\
  Close (Close s) = Close s.
Proof.
  split; [intros k Hk; apply (Close_priv s k Hk)|].
  split; [intros H; unfold Close; rewrite H; reflexivity|].
  split; [apply Close_pub|].
  split; [unfold Close; destruct (priv s); reflexivity|].
  split; [unfold Close; destruct (priv s); reflexivity|].
  destruct (priv s) as [k|] eqn:Hk.
  - rewrite (Close_eq s k Hk).
    rewrite (Close_eq _ (zeros (length k))) by reflexivity.
    cbn [pub sessionID started]. unfold zeros. rewrite repeat_length. reflexivity.
  - unfold Close. rewrite Hk. rewrite Hk. reflexivity.
Qed.

(** ** Building receipts *)


(** X6.  [BuildAndSign] with a signer from [NewSessionSigner] returns a
    receipt that verifies and carries the observation: version 1, the
    path, sequence number, size and commitment of the segment, its times
    as [UnixNano] and the caller's nonce.  With a nil signer it returns
    no receipt and the signer-not-initialized error. *)
Theorem BuildAndSign_verifies (E : Ed25519) (seed : list Z) (now : Time.Time)
    (sid : string) (s : SessionSigner) (sr : Service.SegmentReceipt)
    (nonce : Z) :
  Ed25519_contract E ->
  len seed = SeedSize ->
  NewSessionSigner E (ReadBytes seed) now sid = (Some s, None) ->
  (exists r, BuildAndSign E (Some s) sr nonce = Return (Some r, None) /\
     Verify E r = None /\
     signed_fields r =
       (1, Service.Path sr, Service.Seq sr, Service.Size sr,
        Time.UnixNano (Service.Deadline sr), Time.UnixNano (Service.Recv sr),
        Service.Commit sr, nonce)) /\
  BuildAndSign E None sr nonce =
    Return (None, Some "signer not initialized"%string).
Proof.
  intros HE Hs H. split; [|reflexivity].
  destruct (NewSessionSigner_keys E HE _ _ _ _ Hs H)
    as (pk & sk & Hp & Hq & Lp & Lq & Lsg & Hv).
  unfold BuildAndSign, signAndReturn.
  rewrite (Sign_ok E s _ pk sk Hp Hq Lq).
  eexists. split; [reflexivity|]. split; [|reflexivity].
  unfold Verify. cbn [PubKey Sig set_Sig set_PubKey].
  rewrite Lp, Lsg, digest_set, Hv. reflexivity.
Qed.

Lemma BuildAndSign_verifies_witness :
  exists r, BuildAndSign HashScheme (Some Samples.signer0) Samples.seg1 7 =
              Return (Some r, None) /\
    Verify HashScheme r = None.
Proof.
  destruct (BuildAndSign_verifies HashScheme Samples.seed0 Samples.t0 "s0"
              Samples.signer0 Samples.seg1 7 HashScheme_contract)
    as [(r & Hr & Hv & _) _]; [reflexivity|vm_compute; reflexivity|].
  exists r. split; [exact Hr|exact Hv].
Defined.



(** ** More on the Merkle batcher *)

Lemma merkleize_more depth nodes root :
  merkleize depth nodes = Some root -> merkleize (S depth) nodes = Some root.
Proof.
  revert nodes. induction depth as [|d IH]; intros nodes H; [discriminate|].
  cbn [merkleize] in H. change (merkleize (S (S d)) nodes) with
    (if len nodes =? 1 then Some (nth 0 nodes [])
     else merkleize (S d)
            (pair_up (if len nodes mod 2 =? 1
                      then nodes ++ [nth (Z.to_nat (len nodes - 1)) nodes []]
                      else nodes))).
  destruct (len nodes =? 1); [exact H|]. apply IH. exact H.
Qed.

Lemma merkleize_fuel d1 d2 nodes r1 r2 :
  merkleize d1 nodes = Some r1 -> merkleize d2 nodes = Some r2 -> r1 = r2.
Proof.
  revert d2 nodes. induction d1 as [|d1 IH]; intros d2 nodes H1 H2; [discriminate|].
  destruct d2 as [|d2]; [discriminate|].
  cbn [merkleize] in H1, H2.
  destruct (len nodes =? 1); [congruence|].
  eapply IH; eassumption.
Qed.

(** X8.  The root of a single receipt is its leaf hash, and the anchor
    of the batch holding it alone is the hex of that leaf. *)
Theorem MerkleRoot_single (sort_Slice : Sorter) (r : Receipt) :
  Sorter_contract sort_Slice ->
  MerkleRoot [r] = Some (MerkleLeaf r) /\
  AggregateAnchor sort_Slice [r] = Some (EncodeToString (MerkleLeaf r)).
Proof.
  intros Hc. split; [reflexivity|].
  unfold AggregateAnchor. cbn [len length Z.of_nat Z.eqb].
  destruct (Hc [r]) as [Hp _]. apply Permutation_singleton_r in Hp.
  rewrite Hp. reflexivity.
Qed.

Lemma MerkleRoot_single_witness :
  AggregateAnchor merge_Sorter [Samples.receipt1] =
  Some (EncodeToString (MerkleLeaf Samples.receipt1)).
Proof.
  apply (MerkleRoot_single merge_Sorter Samples.receipt1 merge_Sorter_contract).
Defined.

Lemma merkleize_step depth nodes :
  len nodes <> 1 ->
  merkleize (S depth) nodes =
  merkleize depth
    (pair_up (if len nodes mod 2 =? 1
              then nodes ++ [nth (Z.to_nat (len nodes - 1)) nodes []]
              else nodes)).
Proof.
  intros H. cbn [merkleize]. destruct (Z.eqb_spec (len nodes) 1); [contradiction|reflexivity].
Qed.

(** X9.  A level with an odd number of nodes is paired as if its last
    node were there twice, so a batch of odd size and the batch with its
    last receipt repeated have the same root. *)
Theorem MerkleRoot_repeats_last (rs : list Receipt) (r : Receipt) :
  rs <> [] -> Nat.Even (length rs) ->
  MerkleRoot (rs ++ [r]) = MerkleRoot (rs ++ [r; r]).
Proof.
  intros Hne Hev.
  assert (2 <= length rs)%nat as Hn.
  { destruct rs as [|a [|b rs']]; [contradiction| |cbn; lia].
    destruct Hev as [k Hk]. cbn in Hk. lia. }
  destruct (MerkleRoot_returns (rs ++ [r])) as (x & Hx & _).
  destruct (MerkleRoot_returns (rs ++ [r; r])) as (y & Hy & _).
  rewrite Hx, Hy. f_equal.
  unfold MerkleRoot in Hx, Hy.
  assert (len (rs ++ [r]) = Z.of_nat (length rs) + 1) as L1
    by (unfold len; rewrite length_app; cbn; lia).
  assert (len (rs ++ [r; r]) = Z.of_nat (length rs) + 2) as L2
    by (unfold len; rewrite length_app; cbn; lia).
  destruct (Z.eqb_spec (len (rs ++ [r])) 0) as [?|_]; [lia|].
  destruct (Z.eqb_spec (len (rs ++ [r; r])) 0) as [?|_]; [lia|].
  rewrite !map_app in Hx, Hy. cbn [map] in Hx, Hy.
  set (ls := map MerkleLeaf rs) in *. set (l := MerkleLeaf r) in *.
  assert (length ls = length rs) as Hls by apply length_map.
  assert (len (ls ++ [l]) = Z.of_nat (length rs) + 1) as M1
    by (unfold len; rewrite length_app, Hls; cbn; lia).
  assert (len (ls ++ [l; l]) = Z.of_nat (length rs) + 2) as M2
    by (unfold len; rewrite length_app, Hls; cbn; lia).
  replace (length (ls ++ [l])) with (S (length rs)) in Hx
    by (rewrite length_app, Hls; cbn; lia).
  replace (length (ls ++ [l; l])) with (S (S (length rs))) in Hy
    by (rewrite length_app, Hls; cbn; lia).
  rewrite merkleize_step in Hx by lia.
  rewrite merkleize_step in Hy by lia.
  destruct Hev as [k Hk].
  assert (len (ls ++ [l]) mod 2 = 1) as Hodd.
  { rewrite M1, Hk. replace (Z.of_nat (2 * k) + 1) with (1 + Z.of_nat k * 2) by lia.
    rewrite Z.mod_add by lia. reflexivity. }
  assert (len (ls ++ [l; l]) mod 2 = 0) as Heven.
  { rewrite M2, Hk. replace (Z.of_nat (2 * k) + 2) with (0 + (Z.of_nat k + 1) * 2) by lia.
    rewrite Z.mod_add by lia. reflexivity. }
  rewrite Hodd in Hx. rewrite Heven in Hy.
  change (1 =? 1) with true in Hx. change (0 =? 1) with false in Hy.
  cbv iota in Hx, Hy.
  replace (Z.to_nat (len (ls ++ [l]) - 1)) with (length ls) in Hx by lia.
  rewrite nth_middle in Hx. rewrite <- app_assoc in Hx. cbn [app] in Hx.
  eapply merkleize_fuel; eassumption.
Qed.

Lemma MerkleRoot_repeats_last_witness :
  MerkleRoot [Samples.receipt_a2; Samples.receipt_b1; Samples.receipt1] =
  MerkleRoot [Samples.receipt_a2; Samples.receipt_b1; Samples.receipt1;
              Samples.receipt1].
Proof.
  apply (MerkleRoot_repeats_last [Samples.receipt_a2; Samples.receipt_b1]
           Samples.receipt1).
  - discriminate.
  - exists 1%nat. reflexivity.
Defined.

Lemma string_of_list_ascii_length l :
  String.length (string_of_list_ascii l) = length l.
Proof. induction l as [|c l IH]; [reflexivity|]. cbn. rewrite IH. reflexivity. Qed.

Lemma EncodeToString_length src :
  String.length (EncodeToString src) = (2 * length src)%nat.
Proof.
  unfold EncodeToString. rewrite string_of_list_ascii_length.
  induction src as [|v src IH]; [reflexivity|].
  cbn [flat_map]. rewrite length_app, IH. cbn [length]. lia.
Qed.

(** X10.  The anchor of a batch that is not empty is a string of 64
    characters, whatever the sort does; the anchor of the empty batch is
    the empty string. *)
Theorem AggregateAnchor_length (sort_Slice : Sorter) (rs : list Receipt) :
  rs <> [] ->
  (exists anchor, AggregateAnchor sort_Slice rs = Some anchor /\
     String.length anchor = 64%nat) /\
  AggregateAnchor sort_Slice [] = Some ""%string.
Proof.
  intros Hne. split; [|reflexivity].
  unfold AggregateAnchor, len. destruct rs as [|r rs]; [contradiction|].
  cbn [length]. destruct (Z.eqb_spec (Z.of_nat (S (length rs))) 0) as [?|_]; [lia|].
  destruct (MerkleRoot_returns (sort_Slice (r :: rs))) as (root & -> & Hl).
  eexists. split; [reflexivity|]. rewrite EncodeToString_length, Hl. reflexivity.
Qed.

Lemma AggregateAnchor_length_witness :
  exists anchor,
    AggregateAnchor merge_Sorter [Samples.receipt_b1; Samples.receipt_a2] =
      Some anchor /\
    String.length anchor = 64%nat.
Proof.
  destruct (AggregateAnchor_length merge_Sorter
              [Samples.receipt_b1; Samples.receipt_a2]) as [H _];
    [discriminate|exact H].
Defined.

(** ** The big-endian writers *)

Lemma be_value_snoc l b : be_value (l ++ [b]) = be_value l * 256 + b.
Proof. unfold be_value. rewrite fold_left_app. reflexivity. Qed.

Lemma be_value_big_endian n v :
  be_value (big_endian n v) = v mod 256 ^ Z.of_nat n.
Proof.
  revert v. induction n as [|n IH]; intros v.
  - cbn. rewrite Z.mod_1_r. reflexivity.
  - cbn [big_endian]. rewrite be_value_snoc, IH.
    rewrite Nat2Z.inj_succ, Z.pow_succ_r by lia.
    rewrite (Z.rem_mul_r v 256 (256 ^ Z.of_nat n)) by lia. lia.
Qed.

(** X11.  On a buffer of at least eight bytes [putU64] overwrites the
    first eight with the value, most significant byte first, and keeps the
    rest: read back as a number they give the value modulo [2 ^ 64], so
    the value itself when it is a [uint64].  [putI64] writes the
    two's-complement pattern: a value in the [int64] range is read back
    through [int64]. *)
Theorem putU64_reads_back (b : list Z) (v : Z) :
  (8 <= length b)%nat ->
  putU64 b v = big_endian 8 v ++ drop 8 b /\
  be_value (take 8 (putU64 b v)) = v mod 2 ^ 64 /\
  (is_uint64 v = true -> be_value (take 8 (putU64 b v)) = v) /\
  (is_int64 v = true -> int64 (be_value (take 8 (putI64 b v))) = v) /\
  Service.putU64 b v = putU64 b v.
Proof.
  intros Hb.
  assert (putU64 b v = big_endian 8 v ++ drop 8 b) as Heq.
  { rewrite <- big_endian_8.
    do 8 (destruct b as [|? b]; [cbn in Hb; lia|]). reflexivity. }
  assert (forall w, take 8 (big_endian 8 w ++ drop 8 b) = big_endian 8 w) as Ht.
  { intros w. rewrite take_app_length'; [reflexivity|]. symmetry. apply big_endian_length. }
  assert (be_value (take 8 (putU64 b v)) = v mod 2 ^ 64) as Hval.
  { rewrite Heq, Ht, be_value_big_endian. reflexivity. }
  split; [exact Heq|]. split; [exact Hval|].
  split; [|split; [|reflexivity]].
  - intros Hv. apply is_uint64_spec in Hv. rewrite Hval. apply Z.mod_small. exact Hv.
  - intros Hv. apply is_int64_spec in Hv. unfold putI64.
    assert (putU64 b (uint64 v) = big_endian 8 (uint64 v) ++ drop 8 b) as Heq'.
    { rewrite <- big_endian_8.
      do 8 (destruct b as [|? b]; [cbn in Hb; lia|]). reflexivity. }
    rewrite Heq', Ht, be_value_big_endian. change (256 ^ Z.of_nat 8) with (2 ^ 64).
    unfold uint64, int64. rewrite Z.mod_mod by lia.
    rewrite Zplus_mod_idemp_l. rewrite Z.mod_small by lia. lia.
Qed.

Lemma putU64_reads_back_witness :
  putU64 (zeros 10) 258 = [0; 0; 0; 0; 0; 0; 1; 2; 0; 0] /\
  be_value (take 8 (putU64 (zeros 10) 258)) = 258.
Proof.
  destruct (putU64_reads_back (zeros 10) 258) as (H1 & _ & H3 & _); [cbn; lia|].
  split; [rewrite H1; reflexivity|apply H3; reflexivity].
Defined.

(** ** The anchor and the signatures *)

Lemma unsigned_fields r r' :
  signed_fields r' = signed_fields r -> unsigned r' = unsigned r.
Proof.
  destruct r, r'. unfold signed_fields, unsigned, set_Sig, set_PubKey. cbn.
  intros [= -> -> -> -> -> -> -> ->]. reflexivity.
Qed.

Lemma MerkleLeaf_unsigned r : MerkleLeaf (unsigned r) = MerkleLeaf r.
Proof. unfold MerkleLeaf, unsigned. rewrite digest_set. reflexivity. Qed.

Lemma key_unsigned r : key (unsigned r) = key r.
Proof. reflexivity. Qed.

Lemma in_order_unsigned a b : in_order a b -> in_order (unsigned a) (unsigned b).
Proof. intros H. exact H. Qed.

Lemma MerkleRoot_leaves rs rs' :
  map MerkleLeaf rs' = map MerkleLeaf rs -> MerkleRoot rs' = MerkleRoot rs.
Proof.
  intros H. unfold MerkleRoot, len.
  assert (length rs' = length rs) as ->
    by (rewrite <- (length_map MerkleLeaf rs'), H; apply length_map).
  rewrite H. reflexivity.
Qed.

Lemma leaves_unsigned rs :
  map MerkleLeaf (map unsigned rs) = map MerkleLeaf rs.
Proof.
  rewrite map_map. apply map_ext. intros r. apply MerkleLeaf_unsigned.
Qed.

(** X20.  The anchor covers the signed fields only: two batches whose
    receipts agree, one by one, on those fields have the same anchor,
    whatever their [PubKey] and [Sig] (no two receipts sharing
    [(path, sequence)]).  The anchor of signed receipts is that of the
    unsigned ones. *)
Theorem anchor_ignores_signatures (sort_Slice : Sorter)
    (rs rs' : list Receipt) :
  Sorter_contract sort_Slice ->
  NoDup (map key rs) ->
  map signed_fields rs' = map signed_fields rs ->
  AggregateAnchor sort_Slice rs' = AggregateAnchor sort_Slice rs.
Proof.
  intros Hc Hnd Hf.
  assert (map unsigned rs' = map unsigned rs) as Hu.
  { revert rs' Hf. clear Hnd. induction rs as [|r rs IH]; intros [|r' rs'] Hf;
      try discriminate; [reflexivity|].
    cbn [map] in Hf. apply (f_equal (@hd_error _)) in Hf as H1. cbn in H1.
    apply (f_equal (@tl _)) in Hf as H2. cbn in H2.
    cbn [map]. f_equal; [apply unsigned_fields; congruence|].
    apply IH. exact H2. }
  assert (length rs' = length rs) as Hlen
    by (rewrite <- (length_map unsigned rs'), Hu; apply length_map).
  unfold AggregateAnchor, len. rewrite Hlen.
  destruct (Z.of_nat (length rs) =? 0); [reflexivity|].
  destruct (Hc rs) as [P S]. destruct (Hc rs') as [P' S'].
  assert (map unsigned (sort_Slice rs') = map unsigned (sort_Slice rs)) as Hs.
  { apply (StronglySorted_unique_strong in_order).
    - intros x1 x2 H1 H2 O1 O2.
      apply (NoDup_key_inj (map unsigned rs)).
      + rewrite map_map. rewrite (map_ext _ key); [exact Hnd|]. intros; reflexivity.
      + apply list_elem_of_In. rewrite <- Hu.
        change (map unsigned rs') with (unsigned <$> rs'). rewrite <- P'. exact H1.
      + apply list_elem_of_In.
        change (map unsigned rs) with (unsigned <$> rs). rewrite <- P. exact H2.
      + apply key_le_antisym; apply in_order_key_le; assumption.
    - apply (StronglySorted_fmap unsigned in_order in_order);
        [intros ? ? H; exact H|].
      apply Sorted_StronglySorted; [apply in_order_trans|exact S'].
    - apply (StronglySorted_fmap unsigned in_order in_order);
        [intros ? ? H; exact H|].
      apply Sorted_StronglySorted; [apply in_order_trans|exact S].
    - change (map unsigned (sort_Slice rs')) with (unsigned <$> sort_Slice rs').
      change (map unsigned (sort_Slice rs)) with (unsigned <$> sort_Slice rs).
      rewrite P, P'. change (unsigned <$> rs') with (map unsigned rs'). rewrite Hu.
      reflexivity. }
  rewrite (MerkleRoot_leaves (sort_Slice rs) (sort_Slice rs')); [reflexivity|].
  rewrite <- (leaves_unsigned (sort_Slice rs')), <- (leaves_unsigned (sort_Slice rs)).
  rewrite Hs. reflexivity.
Qed.

Lemma anchor_ignores_signatures_witness :
  Sig Samples.receipt_a2_signed <> Sig Samples.receipt_a2 /\
  AggregateAnchor merge_Sorter [Samples.receipt_b1; Samples.receipt_a2_signed] =
  AggregateAnchor merge_Sorter [Samples.receipt_b1; Samples.receipt_a2].
Proof.
  split; [vm_compute; discriminate|].
  apply (anchor_ignores_signatures merge_Sorter).
  - exact merge_Sorter_contract.
  - apply (bool_decide_unpack _). vm_compute. reflexivity.
  - vm_compute. reflexivity.
Defined.

(** * Further properties of the agent *)

Import Service.

(** ** More on the QoS agent *)

Lemma add_inversion a r a' :
  add a r = Return a' ->
  exists st',
    add_stats (maxRecent a)
      (match perPath a !! Path r with Some st => st | None => zero_stats end) r
      = Return st' /\
    a' = {| perPath := <[Path r := st']> (perPath a);
            lastFlush := lastFlush a; flushInterval := flushInterval a;
            maxRecent := maxRecent a |}.
Proof.
  unfold add. intros H.
  destruct (add_stats _ _ r) as [st'|]; [|discriminate].
  injection H as <-. exists st'. split; reflexivity.
Qed.

(** X12.  [add] touches the stats of the observation's path only: every
    other path keeps its stats, no path is removed, and the capacity,
    the flush interval and the time of the last flush stay as they were. *)
Theorem add_frame (a a' : Agent) (r : SegmentReceipt) :
  add a r = Return a' ->
  (forall p, p <> Path r -> perPath a' !! p = perPath a !! p) /\
  is_Some (perPath a' !! Path r) /\
  dom (perPath a') = {[Path r]} ∪ dom (perPath a) /\
  maxRecent a' = maxRecent a /\ flushInterval a' = flushInterval a /\
  lastFlush a' = lastFlush a.
Proof.
  intros H. destruct (add_inversion a r a' H) as (st' & _ & ->).
  cbn [perPath maxRecent flushInterval lastFlush].
  split; [intros p Hp; apply lookup_insert_ne; congruence|].
  split; [rewrite lookup_insert_eq; eexists; reflexivity|].
  split; [apply dom_insert_L|]. repeat split.
Qed.

Lemma add_frame_witness :
  exists a', add New Samples.seg1 = Return a' /\
    perPath a' !! "other"%string = None /\ maxRecent a' = 64.
Proof.
  eexists. split; [vm_compute; reflexivity|].
  match goal with |- ?l !! _ = _ /\ maxRecent ?a' = _ =>
    destruct (add_frame New a' Samples.seg1) as (H1 & _ & _ & H2 & _)
  end; [vm_compute; reflexivity|].
  split; [rewrite H1 by discriminate; reflexivity|rewrite H2; reflexivity].
Defined.











(** X15.  A late observation is recorded whatever the capacity: [add]
    returns, and of the stats of the path only [Late] and [LastSeq] can
    change; the accepted count, the bytes, the rolling anchor and the
    ring stay as they were. *)
Theorem late_only_counts (a : Agent) (r : SegmentReceipt) :
  on_time r = false ->
  let st := match perPath a !! Path r with Some st => st | None => zero_stats end in
  exists a' st',
    add a r = Return a' /\ perPath a' !! Path r = Some st' /\
    Late st' = int64 (Late st + 1) /\
    Accepted st' = Accepted st /\ Service.Bytes st' = Service.Bytes st /\
    rolling st' = rolling st /\ recentCommits st' = recentCommits st.
Proof.
  intros Hot st. unfold add. fold st. unfold add_stats.
  rewrite onTime_rule, Hot.
  eexists _, _. split; [reflexivity|]. cbn [perPath].
  split; [apply lookup_insert_eq|]. repeat split.
Qed.

Lemma late_only_counts_witness :
  exists a' st',
    add New (observation "p" 2 700 Samples.t0 (Time.Add Samples.t0 1)) = Return a' /\
    perPath a' !! "p"%string = Some st' /\ Late st' = 1 /\ Service.Bytes st' = 0.
Proof.
  destruct (late_only_counts New
              (observation "p" 2 700 Samples.t0 (Time.Add Samples.t0 1)))
    as (a' & st' & Ha & Hl & HL & _ & HB & _); [reflexivity|].
  exists a', st'. split; [exact Ha|]. split; [exact Hl|]. split; [exact HL|exact HB].
Defined.

(** ** The package-level agent *)

(** X16.  Once the singleton exists, [AddReceipt] is [add] on it: a
    sequence of calls leaves the agent where [add_all] leaves it, panics
    when that panics, and never replaces the agent or resets [once]. *)
Theorem AddReceipt_is_add (g : Globals) (a0 : Agent)
    (obs : list SegmentReceipt) :
  defaultAgent g = Some a0 ->
  AddReceipt_all obs g =
  match add_all a0 obs with
  | Return a => Return {| defaultAgent := Some a; once := once g |}
  | Panics => Panics
  end.
Proof.
  revert g a0. induction obs as [|r obs IH]; intros g a0 H.
  - cbn. destruct g as [d o]. cbn in H. subst d. reflexivity.
  - cbn [AddReceipt_all add_all]. unfold AddReceipt. rewrite H.
    destruct (add a0 r) as [a1|]; [|reflexivity].
    rewrite (IH _ a1) by reflexivity. reflexivity.
Qed.

Lemma AddReceipt_is_add_witness :
  exists a,
    add_all New Samples.mixed_obs = Return a /\
    AddReceipt_all Samples.mixed_obs {| defaultAgent := Some New; once := true |} =
      Return {| defaultAgent := Some a; once := true |}.
Proof.
  destruct (add_all_history New Samples.mixed_obs) as (a & Ha & _);
    [reflexivity|cbn; lia|].
  exists a. split; [exact Ha|].
  rewrite (AddReceipt_is_add _ New) by reflexivity. rewrite Ha. reflexivity.
Defined.

(** X17.  The [once.Do] of [Start] creates the agent the first time only:
    from the initial state it installs an agent with no paths, capacity
    64, a flush interval of ten seconds and the time of the call; run
    again, at any time and after any recording, it changes nothing. *)
Theorem Start_once_only_once (now now' : Time.Time) (g : Globals) :
  defaultAgent (Start_once now initial) =
    Some {| perPath := ∅; lastFlush := now;
            flushInterval := 10000000000; maxRecent := 64 |} /\
  once (Start_once now g) = true /\
  Start_once now' (Start_once now g) = Start_once now g /\
  (forall obs g', AddReceipt_all obs (Start_once now g) = Return g' ->
     Start_once now' g' = g').
Proof.
  split; [reflexivity|].
  assert (once (Start_once now g) = true) as Ho.
  { unfold Start_once. destruct (once g) eqn:E; [exact E|reflexivity]. }
  split; [exact Ho|]. split.
  - unfold Start_once at 1. rewrite Ho. reflexivity.
  - intros obs. generalize dependent (Start_once now g). clear g.
    induction obs as [|r obs IH]; intros g Ho g' H.
    + cbn in H. injection H as <-. unfold Start_once. rewrite Ho. reflexivity.
    + cbn [AddReceipt_all] in H. unfold AddReceipt in H.
      destruct (defaultAgent g) as [a|].
      * destruct (add a r) as [a1|]; [|discriminate].
        eapply IH; [|exact H]. exact Ho.
      * eapply IH; [|exact H]. exact Ho.
Qed.

Import Flush.

(** ** The periodic flush *)

Lemma str_le_spec a b : str_le a b <-> String.compare a b <> Gt.
Proof.
  unfold str_le, String.ltb. rewrite (String.compare_antisym a b).
  destruct (String.compare b a); cbn; split; intros H; congruence.
Qed.

Lemma str_le_antisym a b : str_le a b -> str_le b a -> a = b.
Proof.
  rewrite !str_le_spec. rewrite (String.compare_antisym a b).
  destruct (String.compare b a) eqn:C; cbn; intros H1 H2; try congruence.
  symmetry. apply String.compare_eq_iff. exact C.
Qed.

#[local] Instance str_le_trans : Transitive str_le.
Proof.
  intros a b c. rewrite !str_le_spec. intros H1 H2.
  destruct (String.compare a b) eqn:C1; [| |congruence].
  - apply String.compare_eq_iff in C1. subst b. exact H2.
  - destruct (String.compare b c) eqn:C2; [| |congruence].
    + apply String.compare_eq_iff in C2. subst c. rewrite C1. discriminate.
    + rewrite (compare_Lt_trans a b c C1 C2). discriminate.
Qed.

#[local] Instance str_le_total : Total str_le.
Proof.
  intros a b. rewrite !str_le_spec. rewrite (String.compare_antisym a b).
  destruct (String.compare b a); cbn; [left|right|left]; congruence.
Qed.

Lemma merge_Strings_contract : StringSorter_contract merge_Strings.
Proof.
  intros l. unfold merge_Strings. split.
  - apply merge_sort_Permutation.
  - apply (Sorted_merge_sort str_le).
Qed.

Lemma sorted_strings_unique (sort1 sort2 : StringSorter) l1 l2 :
  StringSorter_contract sort1 -> StringSorter_contract sort2 ->
  l1 ≡ₚ l2 -> sort1 l1 = sort2 l2.
Proof.
  intros H1 H2 Hp. destruct (H1 l1) as [P1 S1]. destruct (H2 l2) as [P2 S2].
  apply (StronglySorted_unique_strong str_le).
  - intros x y _ _. apply str_le_antisym.
  - apply Sorted_StronglySorted; [apply str_le_trans|exact S1].
  - apply Sorted_StronglySorted; [apply str_le_trans|exact S2].
  - rewrite P1, P2. exact Hp.
Qed.

Lemma append_loop (l init : list string) :
  fold_left (fun keys k => keys ++ [k]) l init = init ++ l.
Proof.
  revert init. induction l as [|k l IH]; intros init; cbn.
  - symmetry. apply app_nil_r.
  - rewrite IH, <- app_assoc. reflexivity.
Qed.

(** The line [flush] logs for a path. *)
Lemma flush_paths_returns (m : gmap string streamStats) keys global log :
  Forall (fun p => is_Some (m !! p)) keys ->
  exists lines,
    flush_paths m keys global log =
      Return ({| SHA256.written := SHA256.written global ++ global_input m keys |},
              log ++ lines) /\
    map logged_path lines = map Some keys /\
    Forall (fun e => exists p st, m !! p = Some st /\
              e = QosWindow p (LastSeq st) (Accepted st) (Late st)
                    (Service.Bytes st) (Receipts.EncodeToString (rolling st)))
           lines.
Proof.
  revert global log. induction keys as [|p keys IH]; intros global log Hk.
  - exists []. cbn. rewrite !app_nil_r. destruct global. repeat split. constructor.
  - inversion Hk as [|? ? [st Hst] Hk']; subst.
    cbn [flush_paths global_input flat_map]. rewrite Hst.
    destruct (IH (SHA256.Write (SHA256.Write global (of_string p)) (rolling st))
                 (log ++ [QosWindow p (LastSeq st) (Accepted st) (Late st)
                            (Service.Bytes st) (Receipts.EncodeToString (rolling st))])
                 Hk') as (lines & Hf & Hl & Ha).
    eexists (_ :: lines). split; [|split].
    + rewrite Hf. unfold SHA256.Write. cbn [SHA256.written].
      rewrite <- !app_assoc. reflexivity.
    + cbn [map logged_path]. rewrite Hl. reflexivity.
    + constructor; [exists p, st; split; [exact Hst|reflexivity]|exact Ha].
Qed.

Lemma known_paths_lookup a p : In p (known_paths a) <-> is_Some (perPath a !! p).
Proof.
  unfold known_paths. rewrite <- list_elem_of_In, list_elem_of_fmap. split.
  - intros ([k v] & -> & Hin). apply elem_of_map_to_list in Hin. exists v. exact Hin.
  - intros [v Hv]. exists (p, v). split; [reflexivity|]. apply elem_of_map_to_list. exact Hv.
Qed.

Lemma known_paths_NoDup a : NoDup (known_paths a).
Proof. apply NoDup_fst_map_to_list. Qed.

Lemma StronglySorted_strict l :
  NoDup l -> StronglySorted str_le l ->
  StronglySorted (fun p q => String.compare p q = Lt) l.
Proof.
  intros Hnd Hs. induction Hs as [|x l Hs IH Hx]; constructor.
  - apply IH. apply NoDup_cons in Hnd. apply Hnd.
  - apply NoDup_cons in Hnd. destruct Hnd as [Hn _].
    rewrite Forall_forall in Hx |- *. intros y Hy.
    specialize (Hx y Hy). apply str_le_spec in Hx.
    destruct (String.compare x y) eqn:C; [|reflexivity|congruence].
    apply String.compare_eq_iff in C. subst y. contradiction.
Qed.

(** X18.  What [flush] logs and leaves does not depend on the order in
    which the map yields its keys, nor on which sort puts them in order. *)
Theorem flush_order_independent (sort1 sort2 : StringSorter)
    (it1 it2 : list string) (now : Time.Time) (a : Agent) :
  StringSorter_contract sort1 -> StringSorter_contract sort2 ->
  it1 ≡ₚ known_paths a -> it2 ≡ₚ known_paths a ->
  flush sort1 it1 now a = flush sort2 it2 now a.
Proof.
  intros H1 H2 P1 P2. unfold flush. rewrite !append_loop, !app_nil_l.
  rewrite (sorted_strings_unique sort1 sort2 it1 it2 H1 H2); [reflexivity|].
  rewrite P1, P2. reflexivity.
Qed.

Lemma flush_order_independent_witness :
  flush merge_Strings (known_paths Samples.agent_after_mixed) 5
    Samples.agent_after_mixed =
  flush merge_Strings (rev (known_paths Samples.agent_after_mixed)) 5
    Samples.agent_after_mixed.
Proof.
  apply (flush_order_independent merge_Strings merge_Strings);
    try apply merge_Strings_contract.
  - reflexivity.
  - symmetry. apply Permutation_rev.
Defined.

(** X19.  With no path known [flush] logs that and leaves the agent as
    it is, the time of the last flush included.  Otherwise it logs one
    line for each known path, in strictly increasing order of the paths,
    each with the counters of the path and the hex of its rolling anchor,
    then the global anchor: the hex, 64 characters, of the hash of the
    paths and rolling anchors in that order.  It sets the time of the
    last flush and changes nothing else. *)
Theorem flush_reports_sorted (sort_Strings : StringSorter)
    (iteration : list string) (now : Time.Time) (a : Agent) :
  StringSorter_contract sort_Strings ->
  iteration ≡ₚ known_paths a ->
  (perPath a = ∅ -> flush sort_Strings iteration now a = Return (a, [NoPathsYet])) /\
  (perPath a <> ∅ ->
   exists lines ga,
     flush sort_Strings iteration now a =
       Return ({| perPath := perPath a; lastFlush := now;
                  flushInterval := flushInterval a;
                  maxRecent := maxRecent a |},
               lines ++ [GlobalAnchor ga]) /\
     map logged_path lines = map Some (sort_Strings iteration) /\
     sort_Strings iteration ≡ₚ known_paths a /\
     StronglySorted (fun p q => String.compare p q = Lt)
       (sort_Strings iteration) /\
     Forall (fun e => exists p st, perPath a !! p = Some st /\
               e = QosWindow p (LastSeq st) (Accepted st) (Late st)
                     (Service.Bytes st) (Receipts.EncodeToString (rolling st)))
            lines /\
     ga = Receipts.EncodeToString
            (SHA256.Sum256 (global_input (perPath a) (sort_Strings iteration))) /\
     String.length ga = 64%nat).
Proof.
  intros Hc Hp. split.
  - intros He. unfold flush. rewrite He, map_size_empty. reflexivity.
  - intros Hne. unfold flush.
    destruct (Z.eqb_spec (Z.of_nat (size (perPath a))) 0) as [Hz|_].
    { exfalso. apply Hne. apply map_size_empty_iff. lia. }
    rewrite append_loop, app_nil_l.
    destruct (Hc iteration) as [Ps Ss].
    assert (sort_Strings iteration ≡ₚ known_paths a) as Pk by (rewrite Ps; exact Hp).
    assert (Forall (fun p => is_Some (perPath a !! p)) (sort_Strings iteration)) as Hall.
    { apply Forall_forall. intros p Hin. apply known_paths_lookup.
      apply list_elem_of_In. rewrite <- Pk. exact Hin. }
    destruct (flush_paths_returns (perPath a) _ SHA256.New [] Hall)
      as (lines & Hf & Hl & Ha).
    rewrite Hf. cbn [app SHA256.written SHA256.New].
    exists lines. eexists. split; [reflexivity|].
    split; [exact Hl|]. split; [exact Pk|]. split.
    { apply StronglySorted_strict.
      - rewrite Pk. apply known_paths_NoDup.
      - apply Sorted_StronglySorted; [apply str_le_trans|exact Ss]. }
    split; [exact Ha|]. unfold SHA256.Sum. cbn [SHA256.written app].
    split; [reflexivity|].
    rewrite EncodeToString_length, Sum256_length. reflexivity.
Qed.

Lemma flush_reports_sorted_witness :
  exists a' log,
    flush merge_Strings (known_paths Samples.agent_after_mixed) 5
      Samples.agent_after_mixed = Return (a', log) /\
    lastFlush a' = 5 /\ perPath a' = perPath Samples.agent_after_mixed /\
    length log = 3%nat.
Proof.
  destruct (flush_reports_sorted merge_Strings
              (known_paths Samples.agent_after_mixed) 5 Samples.agent_after_mixed
              merge_Strings_contract) as [_ H]; [reflexivity|].
  destruct H as (lines & ga & Hf & Hl & Pk & _); [vm_compute; discriminate|].
  eexists _, _. split; [exact Hf|]. split; [reflexivity|]. split; [reflexivity|].
  rewrite length_app. cbn [length].
  apply (f_equal (@length _)) in Hl. rewrite !length_map in Hl.
  rewrite Hl, (Permutation_length Pk). vm_compute. reflexivity.
Defined.
